(** * AudioPlayer: the playback scheduling and position-tracking engine

    A shallow embedding of [components/AudioPlayer.tsx] and of the audio
    handlers of [App.tsx].

    Modelling conventions
    - Times ([context.currentTime], [buffer.duration], offsets, the slider
      value) are JavaScript numbers in seconds; they are modelled as exact
      integers counting milliseconds, so the literal [0.1] of the source is
      [EPSILON = 100].
    - An [AudioBuffer] is represented by its [duration]; the [AudioContext]
      by its presence, its [currentTime] being the clock of the world.
    - The Web Audio graph is the outside world: every [start], [stop] and
      dispatched [ended] event is appended, in program order, to a log from
      which the set of sounding nodes is derived.
    - React: an event handler runs to completion with its state updates
      batched, then the component re-renders and the passive effects whose
      dependency lists changed run (all cleanups first, then the bodies in
      declaration order).  The inline arrow passed as [onTogglePlay] has a
      new identity on every render of [App]. *)

From Stdlib Require Import ZArith List Bool Lia PeanoNat.
From Stdlib Require Strings.String Strings.Ascii.
From Stdlib Require Numbers.DecimalString Numbers.DecimalZ.
Import ListNotations.
Import String.StringSyntax Ascii.AsciiSyntax.
Delimit Scope string_scope with string.
Delimit Scope char_scope with char.
Open Scope Z_scope.

(** ** Data *)

(** The literal [0.1] (seconds) of the two [onended] handlers. *)
Definition EPSILON : Z := 100.

(** [App.tsx], "Audio State". [renders] counts the renders of [App]; it is
    the identity of the inline [onTogglePlay] arrow function. *)
Record AppState := mkApp {
  isAudioPlaying : bool;
  audioBuffer : option Z;
  audioContext : bool;
  isAudioLoading : bool;
  renders : nat
}.

(** [useState] cells of [AudioPlayer]. *)
Record Local := mkLocal {
  currentTime : Z;
  duration : Z;
  isDragging : bool
}.

(** [useRef] cells of [AudioPlayer]. *)
Record Refs := mkRefs {
  sourceRef : option nat;
  startTimeRef : Z;
  pausedAtRef : Z;
  animationRef : nat
}.

(** The dependency list [[isPlaying, buffer, context, onTogglePlay,
    isDragging]] of the playback effect. *)
Record Deps := mkDeps {
  depPlaying : bool;
  depBuffer : option Z;
  depContext : bool;
  depToggle : nat;
  depDragging : bool
}.

(** What React remembers of the last commit: the dependencies seen by the
    effects and whether the playback effect returned a cleanup (it returns
    none on its early [return]). *)
Record Hooks := mkHooks {
  lastDeps : Deps;
  cleanupArmed : bool
}.

(** An [AudioBufferSourceNode] once started, with what its [onended]
    closure captured. *)
Record SourceNode := mkNode {
  nodeOffset : Z;        (* second argument of [source.start] *)
  nodeStartedAt : Z;     (* [context.currentTime] at the call *)
  nodeBuffer : Z;        (* [buffer.duration] of the captured buffer *)
  nodePlaying : bool     (* [isAudioPlaying] inside the captured [onTogglePlay] *)
}.

Inductive AudioOp :=
| OpStart (h : nat) (nd : SourceNode)
| OpStop (h : nat)
| OpEnded (h : nat).

(** The closure [updateProgress]. *)
Record FrameCb := mkFrame {
  cbDragging : bool;
  cbPlaying : bool;
  cbBuffer : Z
}.

Record World := mkWorld {
  now : Z;                        (* [context.currentTime] *)
  audio : list AudioOp;           (* newest first *)
  nextNode : nat;
  frames : list (nat * FrameCb);  (* pending [requestAnimationFrame] callbacks *)
  nextFrame : nat
}.

Record State := mkState {
  app : AppState;
  local : Local;
  refs : Refs;
  hooks : Hooks;
  world : World
}.

(** ** The audio log *)

Definition drop (h : nat) (l : list nat) : list nat :=
  filter (fun x => negb (Nat.eqb x h)) l.

(** Nodes that are sounding after the operations of the log: a node counts
    from its [start] until it is stopped or its [ended] event has been
    dispatched. *)
Fixpoint live (ops : list AudioOp) : list nat :=
  match ops with
  | [] => []
  | OpStart h _ :: r => h :: live r
  | OpStop h :: r => drop h (live r)
  | OpEnded h :: r => drop h (live r)
  end.

Fixpoint findNode (h : nat) (ops : list AudioOp) : option SourceNode :=
  match ops with
  | [] => None
  | OpStart h' nd :: r => if Nat.eqb h' h then Some nd else findNode h r
  | _ :: r => findNode h r
  end.

Fixpoint endedDispatched (h : nat) (ops : list AudioOp) : bool :=
  match ops with
  | [] => false
  | OpEnded h' :: r => Nat.eqb h' h || endedDispatched h r
  | _ :: r => endedDispatched h r
  end.

(** At every instant of the log at most one node is sounding. *)
Fixpoint exclusive (ops : list AudioOp) : Prop :=
  match ops with
  | [] => True
  | _ :: r => (length (live ops) <= 1)%nat /\ exclusive r
  end.

Definition mem (h : nat) (l : list nat) : bool := existsb (Nat.eqb h) l.

(** ** Setters *)

Definition withApp (a : AppState) (s : State) : State :=
  mkState a (local s) (refs s) (hooks s) (world s).
Definition withLocal (l : Local) (s : State) : State :=
  mkState (app s) l (refs s) (hooks s) (world s).
Definition withRefs (r : Refs) (s : State) : State :=
  mkState (app s) (local s) r (hooks s) (world s).
Definition withHooks (k : Hooks) (s : State) : State :=
  mkState (app s) (local s) (refs s) k (world s).
Definition withWorld (w : World) (s : State) : State :=
  mkState (app s) (local s) (refs s) (hooks s) w.

Definition setCurrentTime (t : Z) (s : State) : State :=
  withLocal (mkLocal t (duration (local s)) (isDragging (local s))) s.
Definition setDuration (d : Z) (s : State) : State :=
  withLocal (mkLocal (currentTime (local s)) d (isDragging (local s))) s.
Definition setIsDragging (b : bool) (s : State) : State :=
  withLocal (mkLocal (currentTime (local s)) (duration (local s)) b) s.

Definition setSourceRef (h : option nat) (s : State) : State :=
  withRefs (mkRefs h (startTimeRef (refs s)) (pausedAtRef (refs s))
              (animationRef (refs s))) s.
Definition setStartTimeRef (t : Z) (s : State) : State :=
  withRefs (mkRefs (sourceRef (refs s)) t (pausedAtRef (refs s))
              (animationRef (refs s))) s.
Definition setPausedAtRef (t : Z) (s : State) : State :=
  withRefs (mkRefs (sourceRef (refs s)) (startTimeRef (refs s)) t
              (animationRef (refs s))) s.
Definition setAnimationRef (i : nat) (s : State) : State :=
  withRefs (mkRefs (sourceRef (refs s)) (startTimeRef (refs s))
              (pausedAtRef (refs s)) i) s.

(** [setIsAudioPlaying v]: React bails out when the value is unchanged,
    otherwise [App] renders again. *)
Definition setIsAudioPlaying (v : bool) (s : State) : State :=
  let a := app s in
  if Bool.eqb v (isAudioPlaying a) then s
  else withApp (mkApp v (audioBuffer a) (audioContext a) (isAudioLoading a)
                  (S (renders a))) s.

Definition setAudioBuffer (b : option Z) (s : State) : State :=
  let a := app s in
  withApp (mkApp (isAudioPlaying a) b (audioContext a) (isAudioLoading a)
             (S (renders a))) s.

Definition setIsAudioLoading (b : bool) (s : State) : State :=
  let a := app s in
  withApp (mkApp (isAudioPlaying a) (audioBuffer a) (audioContext a) b
             (S (renders a))) s.

Definition setAudioContext (s : State) : State :=
  let a := app s in
  withApp (mkApp (isAudioPlaying a) (audioBuffer a) true (isAudioLoading a)
             (S (renders a))) s.

(** [App] renders again for a state change that is not one of the audio
    cells (chat, expanded article, feed, ...). *)
Definition renderApp (s : State) : State :=
  let a := app s in
  withApp (mkApp (isAudioPlaying a) (audioBuffer a) (audioContext a)
             (isAudioLoading a) (S (renders a))) s.

(** ** Web Audio and animation-frame primitives *)

Definition logOp (op : AudioOp) (s : State) : State :=
  let w := world s in
  withWorld (mkWorld (now w) (op :: audio w) (nextNode w) (frames w)
               (nextFrame w)) s.

(** [try { source.stop(); } catch(e) {}] *)
Definition stopSource (h : nat) (s : State) : State := logOp (OpStop h) s.

(** [createBufferSource]; [source.buffer = buffer]; [connect];
    [sourceRef.current = source]; [source.start(0, offset)];
    [startTimeRef.current = context.currentTime - offset];
    [source.onended = ...]. *)
Definition startSource (d : Z) (s : State) : State :=
  let w := world s in
  let h := nextNode w in
  let offset := pausedAtRef (refs s) in
  let nd := mkNode offset (now w) d (isAudioPlaying (app s)) in
  let s1 := withWorld (mkWorld (now w) (OpStart h nd :: audio w) (S h)
                         (frames w) (nextFrame w)) s in
  setStartTimeRef (now w - offset) (setSourceRef (Some h) s1).

(** [animationRef.current = requestAnimationFrame(updateProgress)] *)
Definition requestFrame (cb : FrameCb) (s : State) : State :=
  let w := world s in
  let i := nextFrame w in
  setAnimationRef i
    (withWorld (mkWorld (now w) (audio w) (nextNode w) ((i, cb) :: frames w)
                  (S i)) s).

Definition cancelFrame (i : nat) (l : list (nat * FrameCb)) :=
  filter (fun p => negb (Nat.eqb (fst p) i)) l.

(** [cancelAnimationFrame(animationRef.current)] *)
Definition cancelAnimationFrame (s : State) : State :=
  let w := world s in
  withWorld (mkWorld (now w) (audio w) (nextNode w)
               (cancelFrame (animationRef (refs s)) (frames w))
               (nextFrame w)) s.

(** ** The two effects of [AudioPlayer] *)

(** "Initialize duration", dependencies [[buffer]]. *)
Definition durationEffect (s : State) : State :=
  match audioBuffer (app s) with
  | Some d => setDuration d s
  | None => setPausedAtRef 0 (setCurrentTime 0 (setDuration 0 s))
  end.

(** The function returned by the playback effect. *)
Definition cleanup (s : State) : State :=
  let s1 := match sourceRef (refs s) with
            | Some h => stopSource h s
            | None => s
            end in
  cancelAnimationFrame s1.

Definition depsOf (s : State) : Deps :=
  mkDeps (isAudioPlaying (app s)) (audioBuffer (app s)) (audioContext (app s))
    (renders (app s)) (isDragging (local s)).

Definition setHooks (armed : bool) (s : State) : State :=
  withHooks (mkHooks (depsOf s) armed) s.

(** "Handle Playback Logic". *)
Definition playbackEffect (s : State) : State :=
  match audioBuffer (app s), audioContext (app s) with
  | Some d, true =>
      if isAudioPlaying (app s) then
        let s1 := startSource d s in
        let cb := mkFrame (isDragging (local s)) (isAudioPlaying (app s)) d in
        setHooks true (requestFrame cb s1)
      else
        let s1 := match sourceRef (refs s) with
                  | Some h => setSourceRef None (stopSource h s)
                  | None => s
                  end in
        let s2 := if isDragging (local s) then s1
                  else setPausedAtRef (now (world s) - startTimeRef (refs s)) s1 in
        setHooks true (cancelAnimationFrame s2)
  | _, _ => setHooks false s
  end.

Definition optZ_eqb (a b : option Z) : bool :=
  match a, b with
  | Some x, Some y => Z.eqb x y
  | None, None => true
  | _, _ => false
  end.

Definition deps_eqb (a b : Deps) : bool :=
  Bool.eqb (depPlaying a) (depPlaying b)
  && optZ_eqb (depBuffer a) (depBuffer b)
  && Bool.eqb (depContext a) (depContext b)
  && Nat.eqb (depToggle a) (depToggle b)
  && Bool.eqb (depDragging a) (depDragging b).

(** Re-render and flush of the passive effects. *)
Definition commit (s : State) : State :=
  let old := lastDeps (hooks s) in
  let new := depsOf s in
  if deps_eqb new old then s
  else
    let s1 := if cleanupArmed (hooks s) then cleanup s else s in
    let s2 := if optZ_eqb (depBuffer new) (depBuffer old) then s1
              else durationEffect s1 in
    playbackEffect s2.

(** ** Event handlers *)

(** [initAudio] *)
Definition initAudio (s : State) : State :=
  if audioContext (app s) then s else setAudioContext s.

(** [onTogglePlay] of the current render. *)
Definition onTogglePlay (s : State) : State :=
  setIsAudioPlaying (negb (isAudioPlaying (app s))) s.

(** [handlePlayAudio] up to its first [await]; [same] tells whether
    [playingArticle?.id === article.id]. *)
Definition handlePlayAudio (same : bool) (s : State) : State :=
  let s0 := initAudio s in
  match same, audioBuffer (app s) with
  | true, Some _ => setIsAudioPlaying (negb (isAudioPlaying (app s))) s0
  | _, _ => setAudioBuffer None (setIsAudioPlaying false (setIsAudioLoading true s0))
  end.

(** Continuation of [handlePlayAudio] once [generateNewsAudio] has
    resolved with a buffer of duration [d]. *)
Definition audioLoaded (d : Z) (s : State) : State :=
  setIsAudioLoading false (setIsAudioPlaying true (setAudioBuffer (Some d) s)).

(** [onClose] *)
Definition onClose (s : State) : State :=
  setAudioBuffer None (setIsAudioPlaying false s).

Definition handleSeekStart (s : State) : State := setIsDragging true s.

Definition handleSeekChange (newTime : Z) (s : State) : State :=
  setCurrentTime newTime s.

Definition handleSeekEnd (s : State) : State :=
  match audioBuffer (app s), audioContext (app s) with
  | Some d, true =>
      let s1 := setPausedAtRef (currentTime (local s)) s in
      let s2 := match isAudioPlaying (app s), sourceRef (refs s) with
                | true, Some h => startSource d (stopSource h s1)
                | _, _ => s1
                end in
      setIsDragging false s2
  | _, _ => s
  end.

(** One run of [updateProgress] for the pending request [i]. *)
Definition updateProgress (i : nat) (cb : FrameCb) (s : State) : State :=
  let w := world s in
  let s0 := withWorld (mkWorld (now w) (audio w) (nextNode w)
                         (cancelFrame i (frames w)) (nextFrame w)) s in
  let s1 := if cbDragging cb then s0
            else setCurrentTime
                   (Z.min (now w - startTimeRef (refs s)) (cbBuffer cb)) s0 in
  if cbPlaying cb then requestFrame cb s1 else s1.

Fixpoint findFrame (i : nat) (l : list (nat * FrameCb)) : option FrameCb :=
  match l with
  | [] => None
  | (j, cb) :: r => if Nat.eqb j i then Some cb else findFrame i r
  end.

(** [source.onended] of node [h]. *)
Definition onended (nd : SourceNode) (s : State) : State :=
  if now (world s) - startTimeRef (refs s) >=? nodeBuffer nd - EPSILON then
    setCurrentTime 0
      (setPausedAtRef 0 (setIsAudioPlaying (negb (nodePlaying nd)) s))
  else s.

Definition advance (dt : Z) (s : State) : State :=
  let w := world s in
  withWorld (mkWorld (now w + dt) (audio w) (nextNode w) (frames w)
               (nextFrame w)) s.

(** ** The event loop *)

Inductive Event :=
| InitAudio              (* [initAudio()], first user gesture *)
| PlayAudio (same : bool)  (* a play button of a news card *)
| AudioLoaded (d : Z)    (* [generateNewsAudio] resolved *)
| TogglePlay             (* the play/pause button of the player *)
| Close                  (* the close button of the player *)
| SeekStart              (* mouse down / touch start on the slider *)
| SeekChange (t : Z)     (* the slider moved to [t] *)
| SeekEnd                (* mouse up / touch end on the slider *)
| Frame (i : nat)        (* animation frame request [i] fires *)
| Ended (h : nat)        (* the [ended] event of node [h] is dispatched *)
| Advance (dt : Z)       (* [dt] milliseconds pass *)
| AppRender.             (* [App] re-renders for an unrelated reason *)

(** The handler of an event, before the re-render. *)
Definition handle (e : Event) (s : State) : State :=
  match e with
  | InitAudio => initAudio s
  | PlayAudio same => handlePlayAudio same s
  | AudioLoaded d => audioLoaded d s
  | TogglePlay => onTogglePlay s
  | Close => onClose s
  | SeekStart => handleSeekStart s
  | SeekChange t => handleSeekChange t s
  | SeekEnd => handleSeekEnd s
  | Frame i =>
      match findFrame i (frames (world s)) with
      | Some cb => updateProgress i cb s
      | None => s
      end
  | Ended h =>
      match findNode h (audio (world s)) with
      | Some nd => onended nd (logOp (OpEnded h) s)
      | None => s
      end
  | Advance dt => advance dt s
  | AppRender => renderApp s
  end.

(** One turn of the event loop: the handler, then the re-render. *)
Definition step (e : Event) (s : State) : State := commit (handle e s).

(** [max={duration || 100}] of the range input. *)
Definition sliderMax (s : State) : Z :=
  if duration (local s) =? 0 then 100000 else duration (local s).

(** What the environment can deliver:
    - a decoded buffer needs a context and has a positive duration;
    - the range input reports values between its [min] and [max];
    - only a pending animation frame fires;
    - the [ended] event of a node is dispatched at most once, and for a
      node that is still sounding only when it has played to the end of
      its buffer;
    - the clock never runs backwards. *)
Definition enabled (e : Event) (s : State) : bool :=
  match e with
  | AudioLoaded d => audioContext (app s) && (0 <? d)
  | SeekChange t => (0 <=? t) && (t <=? sliderMax s)
  | Frame i => match findFrame i (frames (world s)) with Some _ => true | None => false end
  | Ended h =>
      match findNode h (audio (world s)) with
      | Some nd =>
          negb (endedDispatched h (audio (world s)))
          && (negb (mem h (live (audio (world s))))
              || (nodeStartedAt nd + (nodeBuffer nd - nodeOffset nd) <=? now (world s)))
      | None => false
      end
  | Advance dt => 0 <=? dt
  | _ => true
  end.

(** Runs the events in order; [None] when one of them cannot occur. *)
Fixpoint exec (evs : list Event) (s : State) : option State :=
  match evs with
  | [] => Some s
  | e :: r => if enabled e s then exec r (step e s) else None
  end.

(** [AudioPlayer] freshly mounted inside [App]: no buffer, no context, both
    effects have run once (the playback effect returned early). *)
Definition init : State :=
  mkState (mkApp false None false false 0)
          (mkLocal 0 0 false)
          (mkRefs None 0 0 0)
          (mkHooks (mkDeps false None false 0 false) false)
          (mkWorld 0 [] 0 [] 0).

(** ** Observations *)

(** Playing: [isPlaying] with a buffer and a context, the condition under
    which the playback effect starts a node. *)
Definition playing (s : State) : bool :=
  isAudioPlaying (app s)
  && match audioBuffer (app s) with Some _ => true | None => false end
  && audioContext (app s).

(** The node held by [sourceRef], when it is sounding. *)
Definition activeEmitter (s : State) : option nat :=
  match sourceRef (refs s) with
  | Some h => if mem h (live (audio (world s))) then Some h else None
  | None => None
  end.

Definition clamp (t lo hi : Z) : Z := Z.max lo (Z.min t hi).

(** The scrub gesture: mouse down, one change to [t], mouse up. *)
Definition seek (t : Z) (s : State) : State :=
  step SeekEnd (step (SeekChange t) (step SeekStart s)).

(** ** Invariants of the event loop *)

Definition nodeOK (s : State) : Prop :=
  live (audio (world s)) = []
  \/ exists h nd,
       live (audio (world s)) = [h]
       /\ sourceRef (refs s) = Some h
       /\ findNode h (audio (world s)) = Some nd
       /\ startTimeRef (refs s) = nodeStartedAt nd - nodeOffset nd
       /\ nodePlaying nd = true
       /\ cleanupArmed (hooks s) = true.

Definition framesOK (s : State) : Prop :=
  frames (world s) = []
  \/ exists cb,
       frames (world s) = [(animationRef (refs s), cb)]
       /\ cbDragging cb = depDragging (lastDeps (hooks s))
       /\ depBuffer (lastDeps (hooks s)) = Some (cbBuffer cb)
       /\ cbPlaying cb = true
       /\ 0 < cbBuffer cb
       /\ cleanupArmed (hooks s) = true.

Definition bounds (s : State) : Prop :=
  startTimeRef (refs s) <= now (world s)
  /\ 0 <= pausedAtRef (refs s)
  /\ 0 <= currentTime (local s)
  /\ (forall d, audioBuffer (app s) = Some d -> 0 < d)
  /\ (audioBuffer (app s) <> None -> audioContext (app s) = true).

(** What holds between a handler and the re-render that follows it. *)
Definition G (s : State) : Prop :=
  exclusive (audio (world s)) /\ nodeOK s /\ framesOK s /\ bounds s.

(** Nothing sounds and no frame is pending. *)
Definition quiet (s : State) : Prop :=
  exclusive (audio (world s))
  /\ live (audio (world s)) = []
  /\ frames (world s) = []
  /\ bounds s.

(** A node sounds and a frame is pending exactly when playing. *)
Definition corr (s : State) : Prop :=
  if playing s
  then live (audio (world s)) <> [] /\ frames (world s) <> []
  else live (audio (world s)) = [] /\ frames (world s) = [].

Definition settled (s : State) : Prop := depsOf s = lastDeps (hooks s).

Definition Inv (s : State) : Prop := G s /\ settled s /\ corr s.

(** What a handler has to leave behind for the re-render to restore the
    invariant. *)
Definition maintained (s : State) : Prop := G s /\ (settled s -> corr s).

(** ** Scenarios and the statements under test *)

(** Number of nodes ever started. *)
Fixpoint starts (ops : list AudioOp) : nat :=
  match ops with
  | [] => O
  | OpStart _ _ :: r => S (starts r)
  | _ :: r => starts r
  end.

(** A state reached by the sequence of events [evs]. *)
Definition reached (evs : list Event) : State :=
  match exec evs init with Some s => s | None => init end.

(** A 10 s clip has just been loaded and is playing from its start. *)
Definition loaded10 : list Event :=
  [InitAudio; PlayAudio false; AudioLoaded 10000].

(** C1 as the specification states it: after every transition the offset
    lies within the clip. *)
Definition offset_within_clip : Prop :=
  forall evs s d,
    exec evs init = Some s ->
    audioBuffer (app s) = Some d ->
    0 <= pausedAtRef (refs s) <= d.

(** A 10 s clip is paused 10.05 s after it started, before the [ended]
    event of its node has been dispatched. *)
Definition lateToggle : list Event := loaded10 ++ [Advance 10050; TogglePlay].

(** C9 as the specification states it: pausing while not Playing and
    playing while Playing change neither the state nor the offset.  The
    pause command is the player's button ([onTogglePlay]); the play command
    is [handlePlayAudio] on the article being played. *)
Definition play_pause_noop : Prop :=
  forall evs s,
    exec evs init = Some s ->
    (playing s = false ->
     isAudioPlaying (app (step TogglePlay s)) = isAudioPlaying (app s)
     /\ pausedAtRef (refs (step TogglePlay s)) = pausedAtRef (refs s))
    /\ (playing s = true ->
        isAudioPlaying (app (step (PlayAudio true) s)) = isAudioPlaying (app s)
        /\ pausedAtRef (refs (step (PlayAudio true) s)) = pausedAtRef (refs s)).

(** A 10 s clip plays for 1 s, then the slider is dragged to 9.95 s and
    released. *)
Definition seekNearEnd : list Event :=
  loaded10 ++ [Advance 1000; SeekStart; SeekChange 9950; SeekEnd].

(** A 10 s clip plays to its end and the [ended] event of its node is
    dispatched. *)
Definition playedThrough : list Event := loaded10 ++ [Advance 10000; Ended 0].

(** C7 as the specification states it: a seek leaves the offset at the
    target clamped to the clip, and a seek to the end of the clip or beyond
    leaves no emitter running. *)
Definition seek_clamps : Prop :=
  forall evs s d t,
    exec evs init = Some s ->
    audioBuffer (app s) = Some d ->
    pausedAtRef (refs (seek t s)) = clamp t 0 d
    /\ (d <= t -> activeEmitter (seek t s) = None).

(** A 10 s clip is paused after 3 s. *)
Definition pausedAt3 : list Event := loaded10 ++ [Advance 3000; TogglePlay].

(** A 10 s clip is paused 9.95 s after its start, 0.05 s before its end. *)
Definition pausedNearEnd : list Event :=
  loaded10 ++ [Advance 9950; TogglePlay].

(** The [ended] event of the node stopped by the pause is dispatched, and
    half a second later the play button is pressed. *)
Definition resumedNearEnd : list Event :=
  pausedNearEnd ++ [Ended 0; Advance 500; TogglePlay].

(** ** Further invariants of the player *)

(** The duration shown by the player is that of the loaded buffer, and the
    stored offset is 0 while no buffer is loaded. *)
Definition synced (s : State) : Prop :=
  (audioBuffer (app s) = None -> pausedAtRef (refs s) = 0)
  /\ duration (local s)
     = match audioBuffer (app s) with Some d => d | None => 0 end.

(** The same, measured against the buffer seen by the last run of the
    effects: what holds between a handler and the re-render. *)
Definition presynced (s : State) : Prop :=
  (depBuffer (lastDeps (hooks s)) = None -> pausedAtRef (refs s) = 0)
  /\ duration (local s)
     = match depBuffer (lastDeps (hooks s)) with Some d => d | None => 0 end.

(** No node of the log was started at a negative offset, for which
    [source.start] throws a [RangeError]. *)
Definition startsNonneg (ops : list AudioOp) : Prop :=
  Forall (fun op => match op with
                    | OpStart _ nd => 0 <= nodeOffset nd
                    | _ => True
                    end) ops.

(** ** [formatTime] and number printing *)

Abbreviation string := String.string.

(** [String(n)] for an integer [n]: decimal digits, with a minus sign for
    negative numbers. *)
Definition numberToString (z : Z) : string :=
  DecimalString.NilZero.string_of_int (Z.to_int z).

Fixpoint repeatString (c : string) (n : nat) : string :=
  match n with
  | O => ""%string
  | S k => String.append c (repeatString c k)
  end.

(** [s.padStart(n, c)] for a one-character [c]. *)
Definition padStart (n : nat) (c : string) (s : string) : string :=
  String.append (repeatString c (n - String.length s)) s.

(** [formatTime] of [AudioPlayer]; the time is in milliseconds, so
    [Math.floor(time / 60)] is [time / 60000] and [Math.floor(time % 60)]
    is the remainder modulo one minute cut to whole seconds. *)
Definition formatTime (time : Z) : string :=
  let minutes := time / 60000 in
  let seconds := Z.rem time 60000 / 1000 in
  String.append (numberToString minutes)
    (String.append ":"%string (padStart 2%nat "0"%string (numberToString seconds))).

(** ** Date navigation of [App] *)

(** A [Date] in local time: the number of its calendar day and the time
    within the day.  [setDate(getDate() + k)] moves the day and keeps the
    time; [setHours(0,0,0,0)] moves to midnight and returns a time stamp,
    and the time stamps of two midnights compare as their days do. *)
Record JsDate := mkDate { dayOf : Z; msOfDay : Z }.

(** The initial [viewDate]: yesterday. *)
Definition initialViewDate (today : JsDate) : JsDate :=
  mkDate (dayOf today - 1) (msOfDay today).

Definition handlePrevDay (viewDate : JsDate) : JsDate :=
  mkDate (dayOf viewDate - 1) (msOfDay viewDate).

(** [newDate.setHours(0,0,0,0)] in the test also moves [newDate], the
    date that is stored, to midnight. *)
Definition handleNextDay (today viewDate : JsDate) : JsDate :=
  let newDate := mkDate (dayOf viewDate + 1) (msOfDay viewDate) in
  let yesterday := mkDate (dayOf today - 1) (msOfDay today) in
  if dayOf newDate <=? dayOf yesterday then mkDate (dayOf newDate) 0
  else viewDate.

Definition isNextDisabled (today viewDate : JsDate) : bool :=
  let nextDate := mkDate (dayOf viewDate + 1) (msOfDay viewDate) in
  let yesterday := mkDate (dayOf today - 1) (msOfDay today) in
  dayOf yesterday <? dayOf nextDate.

Inductive NavEvent :=
| NavPrev                       (* the previous-day button *)
| NavNext                       (* the next-day button *)
| NavClock (today : JsDate).    (* the wall clock is now [today] *)

(** The clock and [viewDate]. *)
Definition navStep (e : NavEvent) (st : JsDate * JsDate) : JsDate * JsDate :=
  match e with
  | NavPrev => (fst st, handlePrevDay (snd st))
  | NavNext => (fst st, handleNextDay (fst st) (snd st))
  | NavClock today => (today, snd st)
  end.

(** The wall clock does not go back to an earlier day. *)
Definition navEnabled (e : NavEvent) (st : JsDate * JsDate) : bool :=
  match e with
  | NavClock today => dayOf (fst st) <=? dayOf today
  | _ => true
  end.

Fixpoint navExec (evs : list NavEvent) (st : JsDate * JsDate)
  : option (JsDate * JsDate) :=
  match evs with
  | [] => Some st
  | e :: r => if navEnabled e st then navExec r (navStep e st) else None
  end.

(** ** [userService] *)

(** A JavaScript object used as a map from string keys: the keys keep
    their insertion order, which is the order of [Object.values]. *)
Fixpoint lookupKey {A} (k : string) (o : list (string * A)) : option A :=
  match o with
  | [] => None
  | (k', v) :: r => if String.eqb k' k then Some v else lookupKey k r
  end.

(** [o[k] = v] *)
Fixpoint setKey {A} (k : string) (v : A) (o : list (string * A))
  : list (string * A) :=
  match o with
  | [] => [(k, v)]
  | (k', v') :: r =>
      if String.eqb k' k then (k', v) :: r else (k', v') :: setKey k v r
  end.

(** [delete o[k]] *)
Fixpoint deleteKey {A} (k : string) (o : list (string * A))
  : list (string * A) :=
  match o with
  | [] => []
  | (k', v') :: r =>
      if String.eqb k' k then r else (k', v') :: deleteKey k r
  end.

Definition objectValues {A} (o : list (string * A)) : list A := map snd o.

(** The objects of the service are plain objects ([{}] or the result of
    [JSON.parse]), so that reading a key that the object does not own
    falls through to [Object.prototype].  These are the names of its
    standard properties: eleven functions, and the accessor [__proto__]. *)
Definition PROTO_KEYS : list string :=
  ["constructor"%string; "hasOwnProperty"%string; "isPrototypeOf"%string;
   "propertyIsEnumerable"%string; "toLocaleString"%string; "toString"%string;
   "valueOf"%string; "__defineGetter__"%string; "__defineSetter__"%string;
   "__lookupGetter__"%string; "__lookupSetter__"%string; "__proto__"%string].

Definition isProtoKey (k : string) : bool := existsb (String.eqb k) PROTO_KEYS.

(** What [o[k]] gives: the value of an own key, else the function or
    object inherited from [Object.prototype], else [undefined].  An
    inherited value is truthy and is neither a number nor a record of the
    service. *)
Inductive Read (A : Type) :=
| Own (v : A)
| Inherited
| Undefined.
Arguments Own {A} v.
Arguments Inherited {A}.
Arguments Undefined {A}.

Definition getProp {A} (k : string) (o : list (string * A)) : Read A :=
  match lookupKey k o with
  | Some v => Own v
  | None => if isProtoKey k then Inherited else Undefined
  end.

(** [o[k] = v] on a plain object.  Without an own key [__proto__] the
    assignment to that name goes to the inherited setter, which adds no own
    key: it ignores a number and makes an array the prototype of [o], and
    [JSON.stringify] writes own keys only.  Every other name becomes an own
    key. *)
Definition assign {A} (k : string) (v : A) (o : list (string * A))
  : list (string * A) :=
  match lookupKey k o with
  | Some _ => setKey k v o
  | None => if String.eqb k "__proto__"%string then o else setKey k v o
  end.

Inductive AgeRange := CHILD | TEEN | ADULT.

(** Interest weights are JavaScript numbers; the finite ones are counted
    here in hundredths, so that [1.0] is 100, [0.1] is 10 and [2.0] is 200,
    and their sums are taken as exact (no rounding, no overflow).
    [NaN] is the weight that is not a number: [NaN] in memory, which
    [JSON.stringify] writes as [null]; both are falsy. *)
Inductive Weight :=
| Num (w : Z)
| NaN.

Record User := mkUser {
  userId : string;
  username : string;
  email : option string;
  password : option string;
  ageRange : AgeRange;
  interests : list (string * Weight);
  readHistory : list string;
  isGoogleAuth : option bool;
  onboardingComplete : option bool
}.

Record NewsArticle := mkArticle {
  articleId : string;
  title : string;
  summary : string;
  category : string;
  globalScore : Z;
  timestamp : string
}.

(** The keys of [localStorage] the service uses; JSON serialisation is
    taken to give back what was stored.  [getUsers] reads a missing key as
    the empty object. *)
Record Storage := mkStorage {
  stUsers : list (string * User);         (* [yir_users] *)
  stCurrent : option string;              (* [yir_current_user] *)
  stBriefings : list (string * list NewsArticle)  (* [yir_briefings] *)
}.

Definition emptyStorage : Storage := mkStorage [] None [].

Definition saveUsers (users : list (string * User)) (st : Storage) : Storage :=
  mkStorage users (stCurrent st) (stBriefings st).

Definition setCurrent (c : option string) (st : Storage) : Storage :=
  mkStorage (stUsers st) c (stBriefings st).

Definition DEFAULT_INTERESTS : list (string * Weight) :=
  [("Global"%string, Num 100); ("Politics"%string, Num 100);
   ("Technology"%string, Num 100); ("Science"%string, Num 100);
   ("Culture"%string, Num 100); ("Business"%string, Num 100)].

(** [ToInt32] *)
Definition toInt32 (z : Z) : Z := (z + 2 ^ 31) mod 2 ^ 32 - 2 ^ 31.

(** The body of the loop of [hashPassword]: [hash << 5] and [hash & hash]
    work on 32-bit integers, the subtraction and the addition in between
    are exact. *)
Definition hashChar (hash : Z) (c : Ascii.ascii) : Z :=
  let char := Z.of_nat (Ascii.nat_of_ascii c) in
  let hash1 := toInt32 (Z.shiftl (toInt32 hash) 5) - hash + char in
  Z.land (toInt32 hash1) (toInt32 hash1).

Fixpoint hashLoop (s : string) (hash : Z) : Z :=
  match s with
  | String.EmptyString => hash
  | String.String c r => hashLoop r (hashChar hash c)
  end.

Definition hashPassword (p : string) : string :=
  numberToString (hashLoop p 0).

(** The base-31 polynomial of the character codes. *)
Fixpoint horner (s : string) (h : Z) : Z :=
  match s with
  | String.EmptyString => h
  | String.String c r => horner r (31 * h + Z.of_nat (Ascii.nat_of_ascii c))
  end.

Definition optString_eqb (a : option string) (b : string) : bool :=
  match a with
  | Some x => String.eqb x b
  | None => false
  end.

Inductive Result (A : Type) :=
| Ok (a : A)
| Err (msg : string).
Arguments Ok {A} a.
Arguments Err {A} msg.

Record SignupData := mkSignup {
  suUsername : string;
  suEmail : string;
  suPassword : option string;
  suAgeRange : AgeRange;
  suIsGoogle : option bool
}.

Section UserService.

(** [String.prototype.toLowerCase] *)
Variable toLowerCase : string -> string.

(** The test of [find] in [login]. *)
Definition loginMatch (identifier : string) (pw : option string)
    (isGoogle : bool) (u : User) : bool :=
  if isGoogle then
    optString_eqb (email u) identifier
    && match isGoogleAuth u with Some true => true | _ => false end
  else
    (String.eqb (toLowerCase (username u)) (toLowerCase identifier)
     || optString_eqb (email u) identifier)
    && optString_eqb (password u)
         (hashPassword match pw with
                       | Some p => p
                       | None => ""%string
                       end).

Definition login (identifier : string) (pw : option string)
    (isGoogle : bool) (st : Storage) : Result (Storage * User) :=
  match find (loginMatch identifier pw isGoogle) (objectValues (stUsers st)) with
  | Some user => Ok (setCurrent (Some (userId user)) st, user)
  | None => Err "Invalid credentials"%string
  end.

(** [signup]; [nowMs] is [Date.now()]. *)
Definition signup (data : SignupData) (nowMs : Z) (st : Storage)
  : Result (Storage * User) :=
  let users := stUsers st in
  if existsb (fun u => String.eqb (toLowerCase (username u))
                         (toLowerCase (suUsername data)))
       (objectValues users)
  then Err "Username already taken"%string
  else if existsb (fun u => optString_eqb (email u) (suEmail data))
            (objectValues users)
  then Err "Email already registered"%string
  else
    let newUser :=
      mkUser (String.append "user-"%string (numberToString nowMs))
        (suUsername data)
        (Some (suEmail data))
        match suPassword data with
        | Some p => if String.eqb p ""%string then None else Some (hashPassword p)
        | None => None
        end
        (suAgeRange data)
        DEFAULT_INTERESTS
        []
        (suIsGoogle data)
        (Some false) in
    Ok (setCurrent (Some (userId newUser))
          (saveUsers (setKey (userId newUser) newUser users) st),
        newUser).

(** [googleAuthSimulation]; the store is taken not to change during the
    simulated network lag of [login] and [signup]. *)
Definition GOOGLE_EMAIL : string := "demo.user@gmail.com"%string.

Definition googleAuthSimulation (nowMs : Z) (st : Storage)
  : Result (Storage * User) :=
  match find (fun u => optString_eqb (email u) GOOGLE_EMAIL)
          (objectValues (stUsers st)) with
  | Some _ => login GOOGLE_EMAIL None true st
  | None =>
      signup (mkSignup "GoogleUser"%string GOOGLE_EMAIL None ADULT (Some true))
        nowMs st
  end.

End UserService.

Definition logout (st : Storage) : Storage := setCurrent None st.

(** [getCurrentUser]: [users[userId] || null], looked up among the own
    keys.  A session id that is no own key but a name of
    [Object.prototype] would give the inherited value instead of [null];
    [login] and [signup] write the id of a stored user. *)
Definition getCurrentUser (st : Storage) : option User :=
  match stCurrent st with
  | None => None
  | Some id => if String.eqb id ""%string then None else lookupKey id (stUsers st)
  end.

Definition withInterests (i : list (string * Weight)) (u : User) : User :=
  mkUser (userId u) (username u) (email u) (password u) (ageRange u) i
    (readHistory u) (isGoogleAuth u) (onboardingComplete u).

Definition withHistory (h : list string) (u : User) : User :=
  mkUser (userId u) (username u) (email u) (password u) (ageRange u)
    (interests u) h (isGoogleAuth u) (onboardingComplete u).

(** [user.interests[category] || 1.0]: a number, or [None] for the
    function or object read when the category is no own key but a name of
    [Object.prototype].  The weights 0 and [null] are falsy and give 1.0. *)
Definition interestOr1 (i : list (string * Weight)) (cat : string) : option Z :=
  match getProp cat i with
  | Own (Num w) => Some (if w =? 0 then 100 else w)
  | Own NaN => Some 100
  | Inherited => None
  | Undefined => Some 100
  end.

(** [Math.max(0.1, (user.interests[category] || 1.0) + delta)]: a function
    or object plus a number is a string that is no numeral, of which
    [Math.max] makes [NaN]. *)
Definition newWeight (i : list (string * Weight)) (cat : string) (delta : Z)
  : Weight :=
  match interestOr1 i cat with
  | Some w => Num (Z.max 10 (w + delta))
  | None => NaN
  end.

(** [updateInterests], for a finite [delta].  For an id that is no own key
    but a name of [Object.prototype], [user] is the inherited value and
    reading [user.interests[category]] throws a [TypeError] (its message
    depends on the engine). *)
Definition updateInterests (id cat : string) (delta : Z) (st : Storage)
  : Result (Storage * option User) :=
  match getProp id (stUsers st) with
  | Own user =>
      let w := newWeight (interests user) cat delta in
      let user' := withInterests (assign cat w (interests user)) user in
      Ok (saveUsers (setKey id user' (stUsers st)) st, Some user')
  | Inherited => Err "TypeError"%string
  | Undefined => Ok (st, None)
  end.

Definition includes (x : string) (l : list string) : bool :=
  existsb (String.eqb x) l.

(** [addToHistory] returns nothing; this is the store it leaves.  For an
    id that is no own key the store stays as it is (for a name of
    [Object.prototype] because [user.readHistory.includes] throws). *)
Definition addToHistory (id art : string) (st : Storage) : Storage :=
  match lookupKey id (stUsers st) with
  | Some user =>
      if includes art (readHistory user) then st
      else saveUsers
             (setKey id (withHistory (readHistory user ++ [art]) user)
                (stUsers st)) st
  | None => st
  end.

(** [completeOnboarding] returns what it read under the id.  For an id
    that is no own key but a name of [Object.prototype], the first selected
    category throws a [TypeError] ([user.interests] is [undefined]); with
    no category selected the inherited value is returned (the property the
    code sets on it is kept by no store). *)
Definition completeOnboarding (id : string) (selected : list string)
    (st : Storage) : Result (Storage * Read User) :=
  match getProp id (stUsers st) with
  | Own user =>
      let i := fold_left (fun acc cat => assign cat (Num 200) acc) selected
                 (interests user) in
      let user' :=
        mkUser (userId user) (username user) (email user) (password user)
          (ageRange user) i (readHistory user) (isGoogleAuth user)
          (Some true) in
      Ok (saveUsers (setKey id user' (stUsers st)) st, Own user')
  | Inherited =>
      match selected with
      | [] => Ok (st, Inherited)
      | _ :: _ => Err "TypeError"%string
      end
  | Undefined => Ok (st, Undefined)
  end.

(** [adminDeleteUser]: the test [users[userIdToWipe]] also holds for a name
    of [Object.prototype], for which [delete] removes nothing. *)
Definition adminDeleteUser (id : string) (st : Storage) : Storage * bool :=
  match getProp id (stUsers st) with
  | Own _ | Inherited =>
      let st1 := saveUsers (deleteKey id (stUsers st)) st in
      (if optString_eqb (stCurrent st1) id then setCurrent None st1 else st1,
       true)
  | Undefined => (st, false)
  end.

(** [adminAddUser]; [nowMs] is [Date.now()].  The age range is taken
    among the values of the enumeration. *)
Definition adminAddUser (name pw mail : string) (age : AgeRange) (nowMs : Z)
    (st : Storage) : Storage * string :=
  let id := String.append "user-"%string (numberToString nowMs) in
  let newUser :=
    mkUser id name (Some mail) (Some (hashPassword pw)) age
      DEFAULT_INTERESTS [] None (Some false) in
  (saveUsers (setKey id newUser (stUsers st)) st, id).

(** The key [`${userId}_${dateStr}`] of a cached briefing. *)
Definition briefingKey (id dateStr : string) : string :=
  String.append id (String.append "_"%string dateStr).

(** [briefings[key] || null]: an own value is an array, which is truthy
    even when empty; [Undefined] stands for the [null] returned, and
    [Inherited] for the member of [Object.prototype] that is returned when
    the key is one of its names. *)
Definition getDailyBriefing (id dateStr : string) (st : Storage)
  : Read (list NewsArticle) :=
  getProp (briefingKey id dateStr) (stBriefings st).

Definition saveDailyBriefing (id dateStr : string)
    (articles : list NewsArticle) (st : Storage) : Storage :=
  mkStorage (stUsers st) (stCurrent st)
    (assign (briefingKey id dateStr) articles (stBriefings st)).

(** Whether a string contains the character [c]. *)
Fixpoint hasChar (c : Ascii.ascii) (s : string) : bool :=
  match s with
  | String.EmptyString => false
  | String.String c' r => Ascii.eqb c' c || hasChar c r
  end.

(** What the service keeps true of a stored weight: a number is at least
    0.1, and only a category named like a property of [Object.prototype]
    can hold a weight that is not a number. *)
Definition weightOK (p : string * Weight) : Prop :=
  match snd p with
  | Num w => 10 <= w
  | NaN => isProtoKey (fst p) = true
  end.

(** What the service keeps true of a stored user: the weights are as
    above and no article occurs twice in the read history. *)
Definition userOK (u : User) : Prop :=
  Forall weightOK (interests u) /\ NoDup (readHistory u).

Definition storageOK (st : Storage) : Prop :=
  Forall (fun p => userOK (snd p)) (stUsers st).

(** The calls of the service that write to the store; the numbers passed
    are finite. *)
Inductive Call :=
| CallSignup (data : SignupData) (nowMs : Z)
| CallLogin (identifier : string) (pw : option string) (isGoogle : bool)
| CallLogout
| CallUpdateInterests (id cat : string) (delta : Z)
| CallAddToHistory (id art : string)
| CallCompleteOnboarding (id : string) (selected : list string)
| CallAdminDeleteUser (id : string)
| CallSaveDailyBriefing (id dateStr : string) (articles : list NewsArticle)
| CallGoogleAuth (nowMs : Z)
| CallAdminAddUser (name pw mail : string) (age : AgeRange) (nowMs : Z).

Definition call (toLowerCase : string -> string) (c : Call) (st : Storage)
  : Storage :=
  match c with
  | CallSignup data nowMs =>
      match signup toLowerCase data nowMs st with
      | Ok (st', _) => st'
      | Err _ => st
      end
  | CallLogin identifier pw isGoogle =>
      match login toLowerCase identifier pw isGoogle st with
      | Ok (st', _) => st'
      | Err _ => st
      end
  | CallLogout => logout st
  | CallUpdateInterests id cat delta =>
      match updateInterests id cat delta st with
      | Ok (st', _) => st'
      | Err _ => st
      end
  | CallAddToHistory id art => addToHistory id art st
  | CallCompleteOnboarding id selected =>
      match completeOnboarding id selected st with
      | Ok (st', _) => st'
      | Err _ => st
      end
  | CallAdminDeleteUser id => fst (adminDeleteUser id st)
  | CallSaveDailyBriefing id dateStr articles =>
      saveDailyBriefing id dateStr articles st
  | CallGoogleAuth nowMs =>
      match googleAuthSimulation toLowerCase nowMs st with
      | Ok (st', _) => st'
      | Err _ => st
      end
  | CallAdminAddUser name pw mail age nowMs =>
      fst (adminAddUser name pw mail age nowMs st)
  end.

(** The store after a sequence of calls on an empty [localStorage]; a call
    that throws leaves the store as it was. *)
Definition run (toLowerCase : string -> string) (cs : list Call) : Storage :=
  fold_left (fun st c => call toLowerCase c st) cs emptyStorage.

(** The field of seconds printed by [formatTime]. *)
Definition secondsField (n : Z) : string :=
  padStart 2%nat "0"%string (numberToString n).

(** The field has two characters and reads back as [n]. *)
Definition secondsFieldOK (n : Z) : bool :=
  Nat.eqb (String.length (secondsField n)) 2
  && match DecimalString.NilZero.int_of_string (secondsField n) with
     | Some d => Z.of_int d =? n
     | None => false
     end.

(** Lower case for ASCII letters, a stand-in for [toLowerCase] in
    examples. *)
Definition lowerChar (c : Ascii.ascii) : Ascii.ascii :=
  let n := Ascii.nat_of_ascii c in
  if Nat.leb 65 n && Nat.leb n 90 then Ascii.ascii_of_nat (n + 32) else c.

Fixpoint asciiLower (s : string) : string :=
  match s with
  | String.EmptyString => String.EmptyString
  | String.String c r => String.String (lowerChar c) (asciiLower r)
  end.

(** Ann signs up at time 1000 with password "pw". *)
Definition annData : SignupData :=
  mkSignup "Ann"%string "ann@example.org"%string (Some "pw"%string) ADULT None.

Definition annStore : Storage := run asciiLower [CallSignup annData 1000].

(** Ann's record; 3591 is the hash of "pw". *)
Definition annUser : User :=
  mkUser "user-1000"%string "Ann"%string (Some "ann@example.org"%string)
    (Some "3591"%string) ADULT DEFAULT_INTERESTS [] None (Some false).

(** The account [googleAuthSimulation] creates at time 5000 on an empty
    store. *)
Definition googleUser : User :=
  mkUser "user-5000"%string "GoogleUser"%string (Some GOOGLE_EMAIL) None ADULT
    DEFAULT_INTERESTS [] (Some true) (Some false).

Definition googleStore : Storage := run asciiLower [CallGoogleAuth 5000].

(** A store in which the demonstration address was registered through the
    sign-up form. *)
Definition demoData : SignupData :=
  mkSignup "Demo"%string GOOGLE_EMAIL (Some "pw"%string) ADULT None.

Definition demoStore : Storage := run asciiLower [CallSignup demoData 1000].

Definition demoUser : User :=
  mkUser "user-1000"%string "Demo"%string (Some GOOGLE_EMAIL)
    (Some "3591"%string) ADULT DEFAULT_INTERESTS [] None (Some false).

Ltac destr_state s :=
  destruct s as [[pl bf cx ld rn] [ct du dr] [sr st pa an]
                 [[lp lb lc lt ldr] ar] [nw au nn fr nf]].

Lemma optZ_eqb_eq a b : optZ_eqb a b = true <-> a = b.
Proof.
  destruct a, b; simpl; split; intro H; try congruence; try reflexivity.
  - apply Z.eqb_eq in H. congruence.
  - inversion H. apply Z.eqb_refl.
Qed.

Lemma deps_eqb_eq a b : deps_eqb a b = true <-> a = b.
Proof.
  destruct a as [p1 b1 c1 t1 d1], b as [p2 b2 c2 t2 d2]. unfold deps_eqb. simpl.
  rewrite !andb_true_iff, !Bool.eqb_true_iff, optZ_eqb_eq, Nat.eqb_eq.
  split.
  - intros [[[[-> ->] ->] ->] ->]. reflexivity.
  - intros H. inversion H. auto.
Qed.

Lemma deps_eqb_neq a b : deps_eqb a b = false <-> a <> b.
Proof.
  rewrite <- deps_eqb_eq. destruct (deps_eqb a b); split; congruence.
Qed.

Arguments drop : simpl never.
Arguments cancelFrame : simpl never.

Lemma drop_same h : drop h [h] = [].
Proof. unfold drop. simpl. rewrite Nat.eqb_refl. reflexivity. Qed.

Lemma commit_settled s : settled s -> commit s = s.
Proof.
  unfold settled, commit. intros H.
  assert (E : deps_eqb (depsOf s) (lastDeps (hooks s)) = true)
    by (apply deps_eqb_eq; exact H).
  rewrite E. reflexivity.
Qed.

(** The cleanup silences the node of [sourceRef] and cancels the frame of
    [animationRef]; where no cleanup was returned there is nothing to
    silence. *)
Lemma cleanup_quiet s :
  G s -> quiet (if cleanupArmed (hooks s) then cleanup s else s).
Proof.
  intros (Hex & Hn & Hf & Hb).
  destr_state s. unfold quiet, nodeOK, framesOK, bounds in *. cbn in *.
  destruct ar.
  - unfold cleanup. cbn.
    assert (Hfr : cancelFrame an fr = []).
    { destruct Hf as [-> | (cb & -> & _)]; [reflexivity|].
      unfold cancelFrame. cbn. rewrite Nat.eqb_refl. reflexivity. }
    destruct sr as [h|]; cbn; rewrite Hfr.
    + assert (Hl : drop h (live au) = []).
      { destruct Hn as [-> | (h' & nd & -> & Hs & _)]; [reflexivity|].
        inversion Hs; subst. apply drop_same. }
      rewrite Hl. repeat split; auto; try tauto; try (cbn; lia).
    + destruct Hn as [Hl | (h' & nd & _ & Hs & _)]; [|discriminate].
      repeat split; auto; tauto.
  - destruct Hn as [Hl | (h' & nd & _ & _ & _ & _ & _ & Ha)]; [|discriminate].
    destruct Hf as [Hfr | (cb & _ & _ & _ & _ & _ & Ha)]; [|discriminate].
    repeat split; auto; tauto.
Qed.

Lemma durationEffect_quiet s : quiet s -> quiet (durationEffect s).
Proof.
  intros (Hex & Hl & Hf & Hb).
  destr_state s. unfold quiet, bounds, durationEffect in *. cbn in *.
  destruct bf; cbn; repeat split; auto; try tauto; lia.
Qed.

Lemma playbackEffect_inv s : quiet s -> Inv (playbackEffect s).
Proof.
  intros (Hex & Hl & Hf & Hb).
  destr_state s.
  unfold bounds in Hb. cbn in *. subst fr.
  destruct Hb as (H1 & H2 & H3 & H4 & H5).
  unfold Inv, G, nodeOK, framesOK, settled, corr, playing, bounds,
    playbackEffect.
  destruct bf as [d|]; [destruct cx|].
  - pose proof (H4 d eq_refl) as Hd.
    destruct pl; cbn.
    + rewrite Hl. cbn.
      repeat split; auto; try lia; try discriminate.
      * right. exists nn, (mkNode pa nw d true). cbn. rewrite Nat.eqb_refl.
        repeat split; auto.
      * right. exists (mkFrame dr true d). cbn. repeat split; auto.
    + destruct sr as [h|], dr; cbn in *; rewrite ?Hl; cbn;
        repeat split; auto; try lia; try discriminate.
  - specialize (H5 ltac:(discriminate)). discriminate.
  - cbn. rewrite andb_false_r. cbn. repeat split; auto; try lia.
Qed.

(** The re-render establishes the invariant from what handlers maintain. *)
Lemma commit_inv s : G s -> (settled s -> corr s) -> Inv (commit s).
Proof.
  intros HG Hc. unfold commit.
  destruct (deps_eqb (depsOf s) (lastDeps (hooks s))) eqn:E.
  - apply deps_eqb_eq in E. repeat split; auto; apply HG.
  - apply playbackEffect_inv.
    pose proof (cleanup_quiet s HG) as Hq.
    destruct (optZ_eqb _ _); [exact Hq|].
    apply durationEffect_quiet, Hq.
Qed.

Lemma live_single_mem h l : l = [h] -> mem h l = true.
Proof. intros ->. unfold mem. simpl. rewrite Nat.eqb_refl. reflexivity. Qed.

Lemma findFrame_single i j cb cb' :
  findFrame i [(j, cb)] = Some cb' -> i = j /\ cb' = cb.
Proof.
  simpl. destruct (Nat.eqb j i) eqn:E; [|discriminate].
  apply Nat.eqb_eq in E. intros H. inversion H. auto.
Qed.

Lemma drop_other h h' : h <> h' -> drop h [h'] = [h'].
Proof.
  intros H. unfold drop. simpl.
  destruct (Nat.eqb h' h) eqn:E; [apply Nat.eqb_eq in E; congruence|reflexivity].
Qed.

(** A handler that only writes the audio cells of [App]. *)
Lemma app_only s a :
  Inv s ->
  a = app s \/ renders a <> renders (app s) ->
  (forall d, audioBuffer a = Some d -> 0 < d) ->
  (audioBuffer a <> None -> audioContext a = true) ->
  maintained (withApp a s).
Proof.
  intros ((Hex & Hn & Hf & Hb) & Hs & Hc) Ha Hd Hx.
  split.
  - unfold G, nodeOK, framesOK, bounds in *. cbn.
    repeat split; auto; apply Hb.
  - intros Hs'. unfold settled in *.
    change (lastDeps (hooks (withApp a s))) with (lastDeps (hooks s)) in Hs'.
    rewrite <- Hs in Hs'.
    destruct Ha as [-> | Hr].
    + destruct s; exact Hc.
    + exfalso. apply Hr. unfold depsOf in Hs'. cbn in Hs'. congruence.
Qed.

Lemma initAudio_maintained s : Inv s -> maintained (initAudio s).
Proof.
  intros HI. pose proof HI as ((_ & _ & _ & Hb) & _).
  unfold initAudio.
  destruct (audioContext (app s)) eqn:E.
  - destruct HI as (HG & _ & Hc). split; auto.
  - unfold setAudioContext. apply app_only; auto; cbn; try apply Hb; auto.
Qed.

Lemma handlePlayAudio_maintained same s : Inv s -> maintained (handlePlayAudio same s).
Proof.
  intros HI. pose proof HI as ((_ & _ & _ & Hb) & _).
  unfold bounds in Hb. destruct Hb as (_ & _ & _ & Hd & Hx).
  assert (E : handlePlayAudio same s = withApp (app (handlePlayAudio same s)) s).
  { destr_state s. unfold handlePlayAudio, initAudio, setIsAudioPlaying.
    destruct same, bf, cx, pl; reflexivity. }
  rewrite E. apply app_only; auto.
  - right. destr_state s.
    unfold handlePlayAudio, initAudio, setIsAudioPlaying.
    destruct same, bf, cx, pl; cbn; lia.
  - destr_state s. cbn in *.
    unfold handlePlayAudio, initAudio, setIsAudioPlaying.
    destruct same, bf, cx, pl; cbn; intros; try discriminate; auto.
  - destr_state s. cbn in *.
    unfold handlePlayAudio, initAudio, setIsAudioPlaying.
    destruct same, bf, cx, pl; cbn; intros; try congruence; auto.
Qed.

Lemma audioLoaded_maintained d s :
  Inv s -> audioContext (app s) = true -> 0 < d -> maintained (audioLoaded d s).
Proof.
  intros HI Hx Hd.
  assert (E : audioLoaded d s = withApp (app (audioLoaded d s)) s).
  { destr_state s. unfold audioLoaded, setIsAudioPlaying.
    destruct pl; reflexivity. }
  rewrite E. destr_state s. cbn in Hx. subst cx.
  apply app_only; auto; unfold audioLoaded, setIsAudioPlaying;
    destruct pl; cbn; intros; try congruence; auto; right; lia.
Qed.

Lemma onTogglePlay_maintained s : Inv s -> maintained (onTogglePlay s).
Proof.
  intros HI. pose proof HI as ((_ & _ & _ & Hb) & _).
  unfold bounds in Hb. destruct Hb as (_ & _ & _ & Hd & Hx).
  assert (E : onTogglePlay s = withApp (app (onTogglePlay s)) s).
  { destr_state s. unfold onTogglePlay, setIsAudioPlaying.
    destruct pl; reflexivity. }
  rewrite E. destr_state s. cbn in *.
  apply app_only; auto; unfold onTogglePlay, setIsAudioPlaying;
    destruct pl; cbn; auto; right; lia.
Qed.

Lemma onClose_maintained s : Inv s -> maintained (onClose s).
Proof.
  intros HI.
  assert (E : onClose s = withApp (app (onClose s)) s).
  { destr_state s. unfold onClose, setIsAudioPlaying.
    destruct pl; reflexivity. }
  rewrite E. destr_state s.
  apply app_only; auto; unfold onClose, setIsAudioPlaying;
    destruct pl; cbn; intros; try congruence; right; lia.
Qed.

Lemma renderApp_maintained s : Inv s -> maintained (renderApp s).
Proof.
  intros HI. pose proof HI as ((_ & _ & _ & Hb) & _).
  unfold bounds in Hb. destruct Hb as (_ & _ & _ & Hd & Hx).
  unfold renderApp. apply app_only; auto; try (right; cbn; lia).
Qed.

(** A handler that only writes the [useState] cells of [AudioPlayer]. *)
Lemma local_only s l :
  Inv s -> 0 <= currentTime l -> maintained (withLocal l s).
Proof.
  intros ((Hex & Hn & Hf & Hb) & Hs & Hc) Ht.
  split; [|intros _; exact Hc].
  unfold G, nodeOK, framesOK, bounds in *. cbn.
  repeat split; auto; apply Hb.
Qed.

Lemma handleSeekStart_maintained s : Inv s -> maintained (handleSeekStart s).
Proof.
  intros HI. apply local_only; auto. cbn. apply HI.
Qed.

Lemma handleSeekChange_maintained t s :
  Inv s -> 0 <= t -> maintained (handleSeekChange t s).
Proof. intros HI Ht. apply local_only; auto. Qed.

Lemma advance_maintained dt s : Inv s -> 0 <= dt -> maintained (advance dt s).
Proof.
  intros ((Hex & Hn & Hf & Hb) & Hs & Hc) Ht.
  split; [|intros _; exact Hc].
  unfold G, nodeOK, framesOK, bounds in *. cbn.
  repeat split; auto; try apply Hb. lia.
Qed.

Lemma updateProgress_maintained i cb s :
  Inv s -> findFrame i (frames (world s)) = Some cb ->
  maintained (updateProgress i cb s).
Proof.
  intros ((Hex & Hn & Hf & Hb) & Hs & Hc) Hi.
  destr_state s. unfold settled, corr, playing, G, nodeOK, framesOK, bounds in *.
  cbn in *.
  destruct Hf as [-> | (cb' & -> & H1 & H2 & H3 & H4 & H5)]; [discriminate|].
  apply findFrame_single in Hi. destruct Hi as [-> ->].
  unfold updateProgress, maintained, settled, corr, playing, G, nodeOK,
    framesOK, bounds.
  cbn. rewrite H3.
  assert (Hcf : cancelFrame an [(an, cb')] = []).
  { unfold cancelFrame. cbn. rewrite Nat.eqb_refl. reflexivity. }
  rewrite Hcf.
  destruct (cbDragging cb') eqn:Ed; cbn.
  - split.
    + repeat split; auto; try apply Hb.
      right. exists cb'. repeat split; auto; congruence.
    + intros _. destruct (pl && _ && cx); [split; [apply Hc|discriminate]|].
      destruct Hc as [_ Hc]. discriminate.
  - split.
    + repeat split; auto; try apply Hb; try lia.
      right. exists cb'. repeat split; auto; congruence.
    + intros _. destruct (pl && _ && cx); [split; [apply Hc|discriminate]|].
      destruct Hc as [_ Hc]. discriminate.
Qed.

Lemma Inv_maintained s : Inv s -> maintained s.
Proof. intros (HG & _ & Hc). split; auto. Qed.

Lemma handleSeekEnd_maintained s : Inv s -> maintained (handleSeekEnd s).
Proof.
  intros HI. pose proof HI as ((Hex & Hn & Hf & Hb) & Hs & Hc).
  unfold handleSeekEnd.
  destruct (audioBuffer (app s)) as [d|] eqn:Eb; [|apply Inv_maintained, HI].
  destruct (audioContext (app s)) eqn:Ex; [|apply Inv_maintained, HI].
  destr_state s.
  unfold settled, corr, playing, G, nodeOK, framesOK, bounds in *.
  cbn in *. subst bf cx.
  destruct Hb as (B1 & B2 & B3 & B4 & B5).
  unfold maintained, settled, corr, playing, G, nodeOK, framesOK, bounds.
  destruct pl; cbn in *.
  - destruct Hc as [Hl Hfr].
    destruct Hn as [Hn | (h & nd & Hn & -> & N1 & N2 & N3 & N4)]; [contradiction|].
    cbn. rewrite Hn, drop_same. cbn.
    split.
    + repeat split; auto; try lia.
      right. exists nn, (mkNode ct nw d true). cbn. rewrite Nat.eqb_refl. auto 10.
    + intros _. split; [discriminate|exact Hfr].
  - destruct sr; cbn; (split; [repeat split; auto|intros _; exact Hc]).
Qed.

(** The [ended] event of node [h]. *)
Lemma onended_maintained h nd s :
  Inv s ->
  findNode h (audio (world s)) = Some nd ->
  negb (mem h (live (audio (world s))))
  || (nodeStartedAt nd + (nodeBuffer nd - nodeOffset nd) <=? now (world s)) = true ->
  maintained (onended nd (logOp (OpEnded h) s)).
Proof.
  intros ((Hex & Hn & Hf & Hb) & Hs & Hc) Hfind Hen.
  destr_state s.
  unfold settled, corr, playing, G, nodeOK, framesOK, bounds in *.
  cbn in *.
  destruct Hb as (B1 & B2 & B3 & B4 & B5).
  unfold maintained, settled, corr, playing, G, nodeOK, framesOK, bounds,
    onended, setIsAudioPlaying.
  cbn.
  destruct Hn as [Hl | (h0 & nd0 & Hl & -> & N1 & N2 & N3 & N4)].
  - (* a node that was already silent *)
    rewrite Hl in *. change (drop h []) with (@nil nat).
    assert (Hp : pl && match bf with Some _ => true | None => false end && cx = false).
    { destruct (pl && _ && cx); [destruct Hc; congruence|reflexivity]. }
    rewrite Hp in Hc. destruct Hc as [_ Hfr]. subst fr.
    destruct (nw - st >=? nodeBuffer nd - EPSILON); cbn.
    + destruct (Bool.eqb (negb (nodePlaying nd)) pl) eqn:E; cbn.
      * rewrite Hp. rewrite Hl. change (drop h []) with (@nil nat).
        repeat split; auto; try lia.
      * split; [rewrite Hl; change (drop h []) with (@nil nat);
                repeat split; auto; lia|].
        intros Hs'. exfalso. inversion Hs. inversion Hs'. lia.
    + rewrite Hp, Hl. change (drop h []) with (@nil nat).
      repeat split; auto; lia.
  - (* the node of [sourceRef] or an older one *)
    rewrite Hl in *.
    assert (Hp : pl = true).
    { destruct pl; [reflexivity|]. cbn in Hc. destruct Hc; discriminate. }
    subst pl.
    destruct (Nat.eq_dec h h0) as [->|Hne].
    + rewrite N1 in Hfind. inversion Hfind; subst nd0. clear Hfind.
      unfold mem in Hen. cbn in Hen. rewrite Nat.eqb_refl in Hen. cbn in Hen.
      apply Z.leb_le in Hen.
      assert (Hg : (nw - st >=? nodeBuffer nd - EPSILON) = true).
      { apply Z.geb_le. unfold EPSILON. lia. }
      rewrite Hg, N3. cbn. rewrite Hl, drop_same.
      split; [repeat split; auto; try lia; cbn; lia|].
      intros Hs'. exfalso. inversion Hs. inversion Hs'. lia.
    + destruct (nw - st >=? nodeBuffer nd - EPSILON); cbn.
      * destruct (nodePlaying nd); cbn.
        -- rewrite Hl, (drop_other h h0 Hne).
           split.
           ++ repeat split; auto; try lia.
              right. exists h0, nd0. auto 10.
           ++ intros Hs'. exfalso. inversion Hs. inversion Hs'. lia.
        -- rewrite Hl, (drop_other h h0 Hne).
           split.
           ++ repeat split; auto; try lia.
              right. exists h0, nd0. auto 10.
           ++ intros _. exact Hc.
      * rewrite Hl, (drop_other h h0 Hne).
        split.
        ++ repeat split; auto; try lia.
           right. exists h0, nd0. auto 10.
        ++ intros _. exact Hc.
Qed.

Lemma handle_maintained e s :
  Inv s -> enabled e s = true -> maintained (handle e s).
Proof.
  intros HI He. destruct e; cbn in *.
  - apply initAudio_maintained, HI.
  - apply handlePlayAudio_maintained, HI.
  - apply andb_true_iff in He. destruct He as [Hx Hd].
    apply audioLoaded_maintained; auto. apply Z.ltb_lt, Hd.
  - apply onTogglePlay_maintained, HI.
  - apply onClose_maintained, HI.
  - apply handleSeekStart_maintained, HI.
  - apply andb_true_iff in He. destruct He as [Ht _].
    apply handleSeekChange_maintained; auto. apply Z.leb_le, Ht.
  - apply handleSeekEnd_maintained, HI.
  - destruct (findFrame i (frames (world s))) eqn:E; [|discriminate].
    apply updateProgress_maintained; auto.
  - destruct (findNode h (audio (world s))) eqn:E; [|discriminate].
    apply andb_true_iff in He. destruct He as [_ He].
    apply onended_maintained; auto.
  - apply advance_maintained; auto. apply Z.leb_le, He.
  - apply renderApp_maintained, HI.
Qed.

Lemma step_inv e s : Inv s -> enabled e s = true -> Inv (step e s).
Proof.
  intros HI He. destruct (handle_maintained e s HI He) as [HG Hc].
  apply commit_inv; assumption.
Qed.

Lemma init_inv : Inv init.
Proof.
  unfold Inv, G, nodeOK, framesOK, bounds, settled, corr. cbn.
  repeat split; auto; try lia; try discriminate; try congruence.
Qed.

Lemma exec_inv_from evs : forall s s', Inv s -> exec evs s = Some s' -> Inv s'.
Proof.
  induction evs as [|e r IH]; intros s s' HI H; cbn in H.
  - inversion H; subst; exact HI.
  - destruct (enabled e s) eqn:He; [|discriminate].
    eapply IH; [|exact H]. apply step_inv; assumption.
Qed.

(** Every state the event loop can reach satisfies the invariant. *)
Lemma exec_inv evs s : exec evs init = Some s -> Inv s.
Proof. apply exec_inv_from, init_inv. Qed.

Lemma exec_app l1 l2 s s' :
  exec l1 s = Some s' -> exec (l1 ++ l2) s = exec l2 s'.
Proof.
  revert s. induction l1 as [|e r IH]; intros s H; cbn in *.
  - inversion H. reflexivity.
  - destruct (enabled e s); [apply IH; exact H|discriminate].
Qed.

(** ** Computing a re-render *)

Lemma deps_changed_toggle a b :
  depToggle a <> depToggle b -> deps_eqb a b = false.
Proof. intros H. apply deps_eqb_neq. congruence. Qed.

Lemma optZ_eqb_refl a : optZ_eqb a a = true.
Proof. apply optZ_eqb_eq. reflexivity. Qed.

(** The effects never write the cells of [App]. *)
Lemma commit_app s : app (commit s) = app s.
Proof.
  destr_state s. unfold commit.
  destruct (deps_eqb _ _); [reflexivity|].
  unfold playbackEffect, durationEffect, cleanup. cbn.
  destruct ar, sr, bf, cx, pl, dr, (optZ_eqb _ lb); reflexivity.
Qed.

(** ** Emitter and state *)

(** C2. In every reachable state of the player, [sourceRef] holds a
    sounding node if and only if the player is Playing, that is
    [isPlaying] is true with a loaded buffer. *)
Theorem emitter_iff_playing evs s :
  exec evs init = Some s ->
  activeEmitter s <> None
  <-> isAudioPlaying (app s) = true /\ audioBuffer (app s) <> None.
Proof.
  intros H. apply exec_inv in H.
  destruct H as ((Hex & Hn & Hf & Hb) & Hs & Hc).
  unfold corr, playing, activeEmitter, nodeOK, bounds in *.
  destruct Hb as (_ & _ & _ & _ & Hx).
  destruct (isAudioPlaying (app s)), (audioBuffer (app s)) as [d|];
    cbn in *;
    try (destruct Hc as [Hl _]; rewrite Hl;
         split; [destruct (sourceRef (refs s)); cbn; congruence
                |intros [? ?]; congruence]).
  rewrite Hx in Hc by discriminate. destruct Hc as [Hl _].
  destruct Hn as [Hn | (h & nd & Hn & Hr & _)]; [contradiction|].
  rewrite Hr, (live_single_mem h _ Hn).
  split; [intros _; split; congruence | discriminate].
Qed.

Lemma emitter_iff_playing_witness :
  exec loaded10 init = Some (reached loaded10)
  /\ (activeEmitter (reached loaded10) <> None
      <-> isAudioPlaying (app (reached loaded10)) = true
          /\ audioBuffer (app (reached loaded10)) <> None).
Proof.
  split; [vm_compute; reflexivity|].
  apply (emitter_iff_playing loaded10). vm_compute. reflexivity.
Defined.

(** C4. At every instant of every execution at most one emitter is
    sounding; a seek released while Playing stops the node of [sourceRef]
    before it starts the new one. *)
Theorem one_emitter_at_a_time evs s :
  exec evs init = Some s ->
  exclusive (audio (world s))
  /\ (playing s = true ->
      exists h nd,
        sourceRef (refs s) = Some h
        /\ audio (world (handleSeekEnd s))
           = OpStart (nextNode (world s)) nd :: OpStop h :: audio (world s)
        /\ live (OpStop h :: audio (world s)) = []).
Proof.
  intros H. apply exec_inv in H.
  destruct H as ((Hex & Hn & Hf & Hb) & Hs & Hc).
  split; [exact Hex|]. intros Hp.
  unfold corr in Hc. rewrite Hp in Hc. destruct Hc as [Hl _].
  destruct Hn as [Hn | (h & nd & Hn & Hr & _)]; [contradiction|].
  unfold playing in Hp. apply andb_true_iff in Hp. destruct Hp as [Hp Hx].
  apply andb_true_iff in Hp. destruct Hp as [Hp Hd].
  destr_state s. cbn in *. subst.
  destruct bf as [d|]; [|discriminate].
  exists h, (mkNode ct nw d true). cbn. rewrite Hn, drop_same. auto.
Qed.

Lemma one_emitter_at_a_time_witness :
  (exec loaded10 init = Some (reached loaded10)
   /\ playing (reached loaded10) = true)
  /\ exclusive (audio (world (reached loaded10)))
  /\ exists h nd,
       sourceRef (refs (reached loaded10)) = Some h
       /\ audio (world (handleSeekEnd (reached loaded10)))
          = OpStart (nextNode (world (reached loaded10))) nd
              :: OpStop h :: audio (world (reached loaded10))
       /\ live (OpStop h :: audio (world (reached loaded10))) = [].
Proof.
  assert (X : exec loaded10 init = Some (reached loaded10))
    by (vm_compute; reflexivity).
  assert (P : playing (reached loaded10) = true) by (vm_compute; reflexivity).
  split; [auto|].
  destruct (one_emitter_at_a_time _ _ X) as [A B].
  split; [exact A | exact (B P)].
Defined.

(** ** Position tracker *)

(** While Playing, [startTimeRef] is the clock reading at the start of the
    sounding node minus the offset it was started at, so that
    [now - startTimeRef] is that offset plus the time played since. *)
Lemma segment_clock evs s :
  exec evs init = Some s ->
  playing s = true ->
  exists h nd,
    sourceRef (refs s) = Some h
    /\ live (audio (world s)) = [h]
    /\ findNode h (audio (world s)) = Some nd
    /\ now (world s) - startTimeRef (refs s)
       = nodeOffset nd + (now (world s) - nodeStartedAt nd).
Proof.
  intros H Hp. apply exec_inv in H.
  destruct H as ((_ & Hn & _) & _ & Hc).
  unfold corr in Hc. rewrite Hp in Hc. destruct Hc as [Hl _].
  destruct Hn as [Hn | (h & nd & Hn & Hr & N1 & N2 & _)]; [contradiction|].
  exists h, nd. repeat split; auto. lia.
Qed.

Lemma updateProgress_settled i cb s :
  settled s -> settled (updateProgress i cb s).
Proof.
  unfold settled. intros H. destr_state s. unfold updateProgress.
  destruct (cbDragging cb), (cbPlaying cb); exact H.
Qed.

(** C8. When an animation frame fires in a reachable state, the player is
    Playing; with no scrub in progress the reported position becomes
    [min (now - startTimeRef) duration], and during a scrub it is left as
    the caller set it. *)
Theorem tick_reports_position evs s i cb :
  exec evs init = Some s ->
  findFrame i (frames (world s)) = Some cb ->
  playing s = true
  /\ exists d,
       audioBuffer (app s) = Some d
       /\ currentTime (local (step (Frame i) s))
          = if isDragging (local s) then currentTime (local s)
            else Z.min (now (world s) - startTimeRef (refs s)) d.
Proof.
  intros H Hi. apply exec_inv in H.
  destruct H as ((Hex & Hn & Hf & Hb) & Hs & Hc).
  unfold step, handle. rewrite Hi.
  rewrite (commit_settled _ (updateProgress_settled i cb s Hs)).
  unfold corr in Hc.
  destruct Hf as [Hf | (cb' & Hf & F1 & F2 & F3 & _)];
    [rewrite Hf in Hi; discriminate|].
  rewrite Hf in Hi. apply findFrame_single in Hi. destruct Hi as [-> ->].
  split.
  { destruct (playing s); [reflexivity|].
    destruct Hc as [_ Hc]. rewrite Hc in Hf. discriminate. }
  unfold settled in Hs. rewrite <- Hs in F1, F2.
  destr_state s. cbn in *. exists (cbBuffer cb'). split; [exact F2|].
  unfold updateProgress. rewrite F1, F3. destruct dr; reflexivity.
Qed.

Lemma tick_reports_position_witness :
  let s := reached (loaded10 ++ [Advance 3000]) in
  exec (loaded10 ++ [Advance 3000]) init = Some s
  /\ findFrame 0 (frames (world s)) = Some (mkFrame false true 10000)
  /\ playing s = true
  /\ exists d,
       audioBuffer (app s) = Some d
       /\ currentTime (local (step (Frame 0) s))
          = if isDragging (local s) then currentTime (local s)
            else Z.min (now (world s) - startTimeRef (refs s)) d.
Proof.
  split; [vm_compute; reflexivity|]. split; [vm_compute; reflexivity|].
  apply (tick_reports_position (loaded10 ++ [Advance 3000]) _ 0%nat
           (mkFrame false true 10000));
    vm_compute; reflexivity.
Defined.

(** ** No clip loaded *)

(** C10. Toggling play while no clip is loaded (no buffer, or no audio
    context) creates no emitter and leaves the stored offset, the segment
    start time and the reported position unchanged. *)
Theorem toggle_without_clip evs s :
  exec evs init = Some s ->
  audioBuffer (app s) = None \/ audioContext (app s) = false ->
  let s' := step TogglePlay s in
  starts (audio (world s')) = starts (audio (world s))
  /\ nextNode (world s') = nextNode (world s)
  /\ live (audio (world s')) = []
  /\ pausedAtRef (refs s') = pausedAtRef (refs s)
  /\ startTimeRef (refs s') = startTimeRef (refs s)
  /\ currentTime (local s') = currentTime (local s).
Proof.
  intros H Hno. apply exec_inv in H.
  destruct H as ((Hex & Hn & Hf & Hb) & Hs & Hc).
  assert (Hp : playing s = false).
  { unfold playing. destruct Hno as [-> | ->];
      [rewrite andb_false_r; reflexivity | apply andb_false_r]. }
  unfold corr in Hc. rewrite Hp in Hc. destruct Hc as [Hl Hfr].
  destr_state s. unfold settled in Hs. cbn in *. inversion Hs; subst.
  unfold step, handle, onTogglePlay, setIsAudioPlaying, commit. cbn.
  rewrite Bool.eqb_negb1. cbn.
  rewrite deps_changed_toggle by (cbn; lia).
  rewrite optZ_eqb_refl.
  unfold playbackEffect, cleanup.
  destruct Hno; subst; destruct ar, sr; try destruct lb; cbn;
    rewrite ?Hl; auto 10.
Qed.

Lemma toggle_without_clip_witness :
  let s := reached [InitAudio; PlayAudio false] in
  let s' := step TogglePlay s in
  (exec [InitAudio; PlayAudio false] init = Some s
   /\ (audioBuffer (app s) = None \/ audioContext (app s) = false))
  /\ starts (audio (world s')) = starts (audio (world s))
  /\ nextNode (world s') = nextNode (world s)
  /\ live (audio (world s')) = []
  /\ pausedAtRef (refs s') = pausedAtRef (refs s)
  /\ startTimeRef (refs s') = startTimeRef (refs s)
  /\ currentTime (local s') = currentTime (local s).
Proof.
  split; [split; [vm_compute; reflexivity | left; vm_compute; reflexivity]|].
  apply (toggle_without_clip [InitAudio; PlayAudio false]);
    [vm_compute; reflexivity | left; vm_compute; reflexivity].
Defined.

(** ** Pause and resume *)

(** A re-render after a change of [App] that kept the buffer. *)
Lemma commit_bumped s :
  renders (app s) <> depToggle (lastDeps (hooks s)) ->
  audioBuffer (app s) = depBuffer (lastDeps (hooks s)) ->
  commit s = playbackEffect (if cleanupArmed (hooks s) then cleanup s else s).
Proof.
  intros Hr Hb. unfold commit.
  rewrite deps_changed_toggle by exact Hr.
  cbn [depsOf depBuffer]. rewrite Hb, optZ_eqb_refl. reflexivity.
Qed.

Lemma step_toggle s :
  settled s ->
  step TogglePlay s
  = playbackEffect
      (if cleanupArmed (hooks s) then cleanup (onTogglePlay s)
       else onTogglePlay s).
Proof.
  intros Hs. unfold step, handle. rewrite commit_bumped.
  - destr_state s. unfold onTogglePlay, setIsAudioPlaying. cbn.
    rewrite Bool.eqb_negb1. reflexivity.
  - destr_state s. unfold settled in Hs. inversion Hs; subst.
    unfold onTogglePlay, setIsAudioPlaying. cbn.
    rewrite Bool.eqb_negb1. cbn. lia.
  - destr_state s. unfold settled in Hs. inversion Hs; subst.
    unfold onTogglePlay, setIsAudioPlaying. cbn.
    rewrite Bool.eqb_negb1. reflexivity.
Qed.

Lemma step_advance dt s : settled s -> step (Advance dt) s = advance dt s.
Proof. intros Hs. unfold step, handle. apply commit_settled. exact Hs. Qed.

(** Pausing: the effect stops the node and saves [now - startTimeRef]. *)
Lemma pause_from_playing s :
  Inv s -> playing s = true -> isDragging (local s) = false ->
  let s1 := step TogglePlay s in
  pausedAtRef (refs s1) = now (world s) - startTimeRef (refs s)
  /\ isAudioPlaying (app s1) = false
  /\ audioBuffer (app s1) = audioBuffer (app s)
  /\ live (audio (world s1)) = []
  /\ now (world s1) = now (world s).
Proof.
  intros ((Hex & Hn & Hf & Hb) & Hs & Hc) Hp Hd. cbn zeta.
  rewrite (step_toggle s Hs).
  unfold corr in Hc. rewrite Hp in Hc. destruct Hc as [Hl _].
  destruct Hn as [Hn | (h & nd & Hn & Hr & _ & _ & _ & Ha)]; [contradiction|].
  unfold playing in Hp. apply andb_true_iff in Hp. destruct Hp as [Hp Hx].
  apply andb_true_iff in Hp. destruct Hp as [Hp Hbf].
  destr_state s. cbn in *. subst.
  destruct bf as [d|]; [|discriminate].
  unfold onTogglePlay, setIsAudioPlaying, playbackEffect, cleanup. cbn.
  rewrite Hn, drop_same. auto.
Qed.

(** Playing: the effect starts a node at the stored offset. *)
Lemma play_from_paused s d :
  Inv s -> isAudioPlaying (app s) = false -> audioBuffer (app s) = Some d ->
  let s2 := step TogglePlay s in
  playing s2 = true
  /\ sourceRef (refs s2) = Some (nextNode (world s))
  /\ live (audio (world s2)) = [nextNode (world s)]
  /\ findNode (nextNode (world s)) (audio (world s2))
     = Some (mkNode (pausedAtRef (refs s)) (now (world s)) d true)
  /\ startTimeRef (refs s2) = now (world s) - pausedAtRef (refs s)
  /\ pausedAtRef (refs s2) = pausedAtRef (refs s).
Proof.
  intros ((Hex & Hn & Hf & Hb) & Hs & Hc) Hp Hd. cbn zeta.
  rewrite (step_toggle s Hs).
  destruct Hb as (_ & _ & _ & _ & Hx).
  rewrite Hd in Hx. specialize (Hx ltac:(discriminate)).
  unfold corr, playing in Hc. rewrite Hp in Hc. cbn in Hc.
  destruct Hc as [Hl _].
  destr_state s. cbn in *. subst.
  unfold playing, onTogglePlay, setIsAudioPlaying, playbackEffect, cleanup. cbn.
  destruct ar, sr; cbn; rewrite ?Hl; cbn; rewrite Nat.eqb_refl; auto 10.
Qed.

(** Pausing in any reachable Playing state and pressing play again any
    time [u] later, with no other event in between, starts the new emitter
    at the offset recorded by the pause. *)
Lemma pause_then_play evs s d u :
  exec evs init = Some s ->
  playing s = true -> isDragging (local s) = false ->
  audioBuffer (app s) = Some d -> 0 <= u ->
  let s1 := step TogglePlay s in
  let s2 := step TogglePlay (step (Advance u) s1) in
  playing s1 = false
  /\ pausedAtRef (refs s1) = now (world s) - startTimeRef (refs s)
  /\ playing s2 = true
  /\ exists h,
       sourceRef (refs s2) = Some h
       /\ live (audio (world s2)) = [h]
       /\ findNode h (audio (world s2))
          = Some (mkNode (pausedAtRef (refs s1)) (now (world s) + u) d true).
Proof.
  intros X Hp Hd Hb Hu. cbn zeta.
  assert (E3 : (0 <=? u) = true) by (apply Z.leb_le; exact Hu).
  pose proof (exec_inv _ _ X) as I0.
  destruct (pause_from_playing _ I0 Hp Hd) as (Q1 & Q2 & Q3 & Q4 & Q5).
  remember (step TogglePlay s) as s1 eqn:E1.
  assert (X1 : exec [TogglePlay] s = Some s1) by (rewrite E1; reflexivity).
  pose proof (exec_inv_from _ _ _ I0 X1) as I1.
  assert (Ea : step (Advance u) s1 = advance u s1)
    by (apply step_advance; apply I1).
  assert (Xb : exec [Advance u] s1 = Some (advance u s1)).
  { cbn. rewrite E3. f_equal. exact Ea. }
  pose proof (exec_inv_from _ _ _ I1 Xb) as Ib.
  rewrite Ea.
  assert (Pb : isAudioPlaying (app (advance u s1)) = false) by exact Q2.
  assert (Bb : audioBuffer (app (advance u s1)) = Some d)
    by (cbn; rewrite Q3; exact Hb).
  assert (Ab : pausedAtRef (refs (advance u s1)) = pausedAtRef (refs s1))
    by reflexivity.
  assert (Nb : now (world (advance u s1)) = now (world s) + u)
    by (cbn; rewrite Q5; reflexivity).
  remember (advance u s1) as sb eqn:Eb.
  destruct (play_from_paused _ d Ib Pb Bb) as (R1 & R2 & R3 & R4 & _).
  split; [unfold playing; rewrite Q2; reflexivity|].
  split; [exact Q1|]. split; [exact R1|].
  exists (nextNode (world sb)).
  split; [exact R2|]. split; [exact R3|].
  rewrite R4, Ab, Nb. reflexivity.
Qed.

(** C6. A 10 s clip is paused 9.95 s after its start: the pause records
    the offset 9.95 s.  The [ended] event of the node that the pause
    stopped is then dispatched; the handler takes it for a natural
    completion and sets the offset to 0, so that the next press of play
    starts the new emitter at offset 0 and not at the offset recorded at
    pause. *)
Theorem resume_near_end_restarts_from_zero :
  let s1 := reached pausedNearEnd in
  let s2 := reached resumedNearEnd in
  exec pausedNearEnd init = Some s1
  /\ playing s1 = false
  /\ pausedAtRef (refs s1) = 9950
  /\ enabled (Ended 0) s1 = true
  /\ pausedAtRef (refs (step (Ended 0) s1)) = 0
  /\ exec [Ended 0; Advance 500; TogglePlay] s1 = Some s2
  /\ playing s2 = true
  /\ sourceRef (refs s2) = Some 1%nat
  /\ live (audio (world s2)) = [1%nat]
  /\ findNode 1 (audio (world s2)) = Some (mkNode 0 10450 10000 true).
Proof. vm_compute. repeat split; reflexivity. Qed.

(** ** Bounds of the offset *)

(** The pause branch stores [now - startTimeRef] as it is: 10.05 s on a
    10 s clip. *)
Lemma offset_within_clip_fails : ~ offset_within_clip.
Proof.
  intros H.
  assert (X : exec lateToggle init = Some (reached lateToggle))
    by (vm_compute; reflexivity).
  assert (B : audioBuffer (app (reached lateToggle)) = Some 10000)
    by (vm_compute; reflexivity).
  assert (P : pausedAtRef (refs (reached lateToggle)) = 10050)
    by (vm_compute; reflexivity).
  destruct (H _ _ _ X B) as [_ Hle]. rewrite P in Hle. lia.
Qed.

(** The saved offset also drifts while paused: pause at 3 s, touch the
    slider 20 s later, and the effect saves 23 s. *)
Example paused_offset_drifts :
  let s := reached (loaded10 ++ [Advance 3000; TogglePlay; Advance 20000;
                                  SeekStart; SeekEnd]) in
  playing s = false /\ pausedAtRef (refs s) = 23000.
Proof. vm_compute. split; reflexivity. Qed.

(** C1, amended. After every transition the offset and the reported
    position are non-negative (no upper bound is enforced), and pausing
    from Playing with no scrub in progress sets the offset to
    [now - startTimeRef], unclamped. *)
Theorem offset_nonnegative evs s :
  exec evs init = Some s ->
  0 <= pausedAtRef (refs s)
  /\ 0 <= currentTime (local s)
  /\ (playing s = true -> isDragging (local s) = false ->
      pausedAtRef (refs (step TogglePlay s))
      = now (world s) - startTimeRef (refs s)).
Proof.
  intros H. apply exec_inv in H. pose proof H as ((_ & _ & _ & Hb) & _).
  destruct Hb as (_ & Hp & Hc & _).
  repeat split; auto.
  intros Hpl Hd. apply (pause_from_playing s H Hpl Hd).
Qed.

Lemma offset_nonnegative_witness :
  let s := reached (loaded10 ++ [Advance 3000]) in
  (exec (loaded10 ++ [Advance 3000]) init = Some s
   /\ playing s = true /\ isDragging (local s) = false)
  /\ 0 <= pausedAtRef (refs s)
  /\ 0 <= currentTime (local s)
  /\ pausedAtRef (refs (step TogglePlay s))
     = now (world s) - startTimeRef (refs s).
Proof.
  assert (X : exec (loaded10 ++ [Advance 3000]) init
              = Some (reached (loaded10 ++ [Advance 3000])))
    by (vm_compute; reflexivity).
  assert (P : playing (reached (loaded10 ++ [Advance 3000])) = true)
    by (vm_compute; reflexivity).
  assert (D : isDragging (local (reached (loaded10 ++ [Advance 3000]))) = false)
    by (vm_compute; reflexivity).
  split; [auto|].
  destruct (offset_nonnegative _ _ X) as (A & B & C).
  split; [exact A|]. split; [exact B|]. exact (C P D).
Defined.

(** ** The play control *)

(** [handlePlayAudio] on the playing article pauses it. *)
Lemma play_pause_noop_fails : ~ play_pause_noop.
Proof.
  intros H.
  assert (X : exec (loaded10 ++ [Advance 3000]) init
              = Some (reached (loaded10 ++ [Advance 3000])))
    by (vm_compute; reflexivity).
  assert (P : playing (reached (loaded10 ++ [Advance 3000])) = true)
    by (vm_compute; reflexivity).
  assert (A : isAudioPlaying (app (reached (loaded10 ++ [Advance 3000]))) = true)
    by (vm_compute; reflexivity).
  assert (B : isAudioPlaying
                (app (step (PlayAudio true)
                        (reached (loaded10 ++ [Advance 3000])))) = false)
    by (vm_compute; reflexivity).
  destruct (H _ _ X) as [_ Hplay].
  destruct (Hplay P) as [Hp _]. rewrite A, B in Hp. discriminate Hp.
Qed.

(** C9, amended. The play/pause control is a toggle: the player's button,
    and [handlePlayAudio] on the current article once its clip is loaded,
    always invert [isPlaying]; so invoked while Playing they pause and
    invoked while paused they play. *)
Theorem play_control_toggles s :
  audioBuffer (app s) <> None ->
  isAudioPlaying (app (step TogglePlay s)) = negb (isAudioPlaying (app s))
  /\ isAudioPlaying (app (step (PlayAudio true) s))
     = negb (isAudioPlaying (app s)).
Proof.
  intros Hb. unfold step. rewrite !commit_app. destr_state s.
  unfold handle, onTogglePlay, handlePlayAudio, initAudio, setIsAudioPlaying.
  cbn in *. destruct bf; [|congruence].
  split; destruct cx, pl; reflexivity.
Qed.

Lemma play_control_toggles_witness :
  let s := reached loaded10 in
  audioBuffer (app s) <> None
  /\ isAudioPlaying (app (step TogglePlay s)) = negb (isAudioPlaying (app s))
  /\ isAudioPlaying (app (step (PlayAudio true) s))
     = negb (isAudioPlaying (app s)).
Proof.
  assert (B : audioBuffer (app (reached loaded10)) <> None)
    by (vm_compute; discriminate).
  split; [exact B|].
  apply (play_control_toggles (reached loaded10) B).
Defined.

(** ** Completion *)

(** The handler ignores an [ended] event delivered while the current
    segment is more than [EPSILON] short of the end of the buffer. *)
Lemma onended_ignored nd s :
  now (world s) - startTimeRef (refs s) < nodeBuffer nd - EPSILON ->
  onended nd s = s.
Proof.
  intros H. unfold onended.
  destruct (now (world s) - startTimeRef (refs s) >=? nodeBuffer nd - EPSILON)
    eqn:E; [|reflexivity].
  apply Z.geb_le in E. lia.
Qed.

(** C3. After a seek to within [EPSILON] of the end, node 3 is sounding and
    node 0, the original emitter, has been replaced; the [ended] event of
    node 0 is nevertheless honoured: playback stops and node 3 is silenced. *)
Theorem stale_completion_stops_playback :
  let s := reached seekNearEnd in
  exec seekNearEnd init = Some s
  /\ playing s = true
  /\ activeEmitter s = Some 3%nat
  /\ mem 0 (live (audio (world s))) = false
  /\ enabled (Ended 0) s = true
  /\ playing (step (Ended 0) s) = false
  /\ activeEmitter (step (Ended 0) s) = None.
Proof. vm_compute. repeat split; reflexivity. Qed.

(** C5. Natural completion stops the player, the emitter and the tracker
    and reports position 0; the handler sets the offset to 0, but the pause
    branch of the effect that runs on the following re-render overwrites it
    with [now - startTimeRef], here the whole 10 s. *)
Theorem natural_completion_keeps_offset :
  let s0 := reached (loaded10 ++ [Advance 10000]) in
  let s := reached playedThrough in
  exec playedThrough init = Some s
  /\ pausedAtRef (refs (handle (Ended 0) s0)) = 0
  /\ s = commit (handle (Ended 0) s0)
  /\ playing s = false
  /\ activeEmitter s = None
  /\ frames (world s) = []
  /\ currentTime (local s) = 0
  /\ pausedAtRef (refs s) = 10000.
Proof. vm_compute. repeat split; reflexivity. Qed.

(** The same for every natural completion: from any reachable Playing state
    with no scrub in progress, once the node of [sourceRef] has played to
    the end of its buffer, its [ended] event leaves the offset at
    [now - startTimeRef], which is at least [duration - EPSILON]. *)
Lemma natural_completion_offset evs s h nd :
  exec evs init = Some s ->
  playing s = true -> isDragging (local s) = false ->
  sourceRef (refs s) = Some h ->
  findNode h (audio (world s)) = Some nd ->
  nodeStartedAt nd + (nodeBuffer nd - nodeOffset nd) <= now (world s) ->
  let s' := step (Ended h) s in
  playing s' = false
  /\ live (audio (world s')) = []
  /\ frames (world s') = []
  /\ currentTime (local s') = 0
  /\ pausedAtRef (refs s') = now (world s) - startTimeRef (refs s)
  /\ nodeBuffer nd - EPSILON <= pausedAtRef (refs s').
Proof.
  intros H Hp Hd Hr Hfind Hend. apply exec_inv in H.
  destruct H as ((Hex & Hn & Hf & Hb) & Hs & Hc). cbn zeta.
  unfold corr in Hc. rewrite Hp in Hc. destruct Hc as [Hl Hfr].
  destruct Hn as [Hn | (h' & nd' & Hn & Hr' & N1 & N2 & N3 & N4)];
    [contradiction|].
  rewrite Hr in Hr'. inversion Hr'; subst h'. rewrite Hfind in N1.
  inversion N1; subst nd'. clear N1 Hr'.
  destruct Hf as [Hf | (cb & Hf & _)]; [contradiction|].
  unfold playing in Hp. apply andb_true_iff in Hp. destruct Hp as [Hp Hx].
  apply andb_true_iff in Hp. destruct Hp as [Hp Hbf].
  assert (Hg : (now (world s) - startTimeRef (refs s)
                >=? nodeBuffer nd - EPSILON) = true).
  { apply Z.geb_le. unfold EPSILON. lia. }
  unfold step, handle. rewrite Hfind.
  rewrite commit_bumped.
  - destr_state s. unfold settled in Hs. cbn in *. inversion Hs; subst.
    destruct lb as [d|]; [|discriminate].
    unfold onended, setIsAudioPlaying, playing, playbackEffect, cleanup. cbn.
    rewrite Hg, N3. cbn. rewrite Hn, drop_same.
    unfold cancelFrame. cbn. rewrite Nat.eqb_refl. cbn.
    repeat split; auto. unfold EPSILON in *. lia.
  - destr_state s. unfold settled in Hs. cbn in *. inversion Hs; subst.
    unfold onended, setIsAudioPlaying. cbn. rewrite Hg, N3. cbn. lia.
  - destr_state s. unfold settled in Hs. cbn in *. inversion Hs; subst.
    unfold onended, setIsAudioPlaying. cbn. rewrite Hg, N3. reflexivity.
Qed.

(** ** Seeking *)

Lemma commit_changed s :
  depsOf s <> lastDeps (hooks s) ->
  audioBuffer (app s) = depBuffer (lastDeps (hooks s)) ->
  commit s = playbackEffect (if cleanupArmed (hooks s) then cleanup s else s).
Proof.
  intros Hr Hb. unfold commit.
  apply deps_eqb_neq in Hr. rewrite Hr.
  cbn [depsOf depBuffer]. rewrite Hb, optZ_eqb_refl. reflexivity.
Qed.

Lemma commit_dragging s : isDragging (local (commit s)) = isDragging (local s).
Proof.
  destr_state s. unfold commit.
  destruct (deps_eqb _ _); [reflexivity|].
  unfold playbackEffect, durationEffect, cleanup. cbn.
  destruct ar, sr, bf, cx, pl, dr, (optZ_eqb _ lb); reflexivity.
Qed.

(** Releasing the slider while Playing: the offset becomes the slider
    position and, after the re-render, a node started at that offset is
    sounding. *)
Lemma seekEnd_playing s d :
  Inv s -> playing s = true -> isDragging (local s) = true ->
  audioBuffer (app s) = Some d ->
  let s' := step SeekEnd s in
  pausedAtRef (refs s') = currentTime (local s)
  /\ playing s' = true
  /\ isDragging (local s') = false
  /\ sourceRef (refs s') = Some (S (nextNode (world s)))
  /\ live (audio (world s')) = [S (nextNode (world s))]
  /\ findNode (S (nextNode (world s))) (audio (world s'))
     = Some (mkNode (currentTime (local s)) (now (world s)) d true).
Proof.
  intros ((Hex & Hn & Hf & Hb) & Hs & Hc) Hp Hd Hbf. cbn zeta.
  unfold corr in Hc. rewrite Hp in Hc. destruct Hc as [Hl Hfr].
  destruct Hn as [Hn | (h & nd & Hn & Hr & N1 & N2 & N3 & N4)];
    [contradiction|].
  destruct Hf as [Hf | (cb & Hf & _)]; [contradiction|].
  unfold playing in Hp. apply andb_true_iff in Hp. destruct Hp as [Hp Hx].
  apply andb_true_iff in Hp. destruct Hp as [Hp _].
  unfold step, handle. rewrite commit_changed.
  - destr_state s. unfold settled in Hs. cbn in *. inversion Hs; subst.
    unfold handleSeekEnd, playing, playbackEffect, cleanup. cbn.
    rewrite Hn, drop_same. cbn. rewrite ?Nat.eqb_refl, ?drop_same.
    cbn. rewrite ?Nat.eqb_refl. auto 10.
  - destr_state s. unfold settled in Hs. cbn in *. inversion Hs; subst.
    unfold handleSeekEnd, depsOf. cbn. intros E. inversion E.
  - destr_state s. unfold settled in Hs. cbn in *. inversion Hs; subst.
    unfold handleSeekEnd. cbn. reflexivity.
Qed.

(** Dragging the slider of a playing 10 s clip to its end, 10 s, replaces
    the emitter by one started at offset 10 s, which is left running. *)
Lemma seek_clamps_fails : ~ seek_clamps.
Proof.
  intros H.
  assert (X : exec loaded10 init = Some (reached loaded10))
    by (vm_compute; reflexivity).
  assert (B : audioBuffer (app (reached loaded10)) = Some 10000)
    by (vm_compute; reflexivity).
  assert (A : activeEmitter (seek 10000 (reached loaded10)) = Some 3%nat)
    by (vm_compute; reflexivity).
  destruct (H _ _ _ 10000 X B) as [_ Hn].
  rewrite A in Hn. specialize (Hn ltac:(lia)). discriminate Hn.
Qed.

(** Seeking to 7.5 s while paused leaves the offset at 3 s: the pause
    branch of the effect, re-run when [isDragging] returns to false,
    overwrites what [handleSeekEnd] stored. *)
Example seek_while_paused_overwritten :
  let s := reached pausedAt3 in
  exec pausedAt3 init = Some s
  /\ pausedAtRef (refs (handle SeekEnd (step (SeekChange 7500) (step SeekStart s))))
     = 7500
  /\ pausedAtRef (refs (seek 7500 s)) = 3000.
Proof. vm_compute. repeat split; reflexivity. Qed.

(** Nothing in the handlers clamps: a target of 12 s on a playing 10 s clip
    is stored as 12 s, and the replacing emitter is started there. *)
Example seek_beyond_end_unclamped :
  let s := seek 12000 (reached loaded10) in
  pausedAtRef (refs s) = 12000
  /\ clamp 12000 0 10000 = 10000
  /\ activeEmitter s = Some 3%nat
  /\ option_map nodeOffset (findNode 3 (audio (world s))) = Some 12000.
Proof. vm_compute. repeat split; reflexivity. Qed.

(** C7, amended. The handlers do not clamp: [handleSeekEnd] stores the
    slider value [t] as the offset whatever it is.  For every target
    [t >= 0] (the [min] of the range input) a seek while Playing ends with
    offset [t], still Playing, and with the emitter replaced by one started
    at offset [t], also when [t] is the end of the clip or beyond. *)
Theorem seek_sets_offset evs s d t :
  exec evs init = Some s ->
  audioBuffer (app s) = Some d ->
  playing s = true ->
  0 <= t ->
  pausedAtRef (refs (handleSeekEnd (handleSeekChange t s))) = t
  /\ pausedAtRef (refs (seek t s)) = t
  /\ playing (seek t s) = true
  /\ exists h nd,
       sourceRef (refs (seek t s)) = Some h
       /\ live (audio (world (seek t s))) = [h]
       /\ findNode h (audio (world (seek t s))) = Some nd
       /\ nodeOffset nd = t.
Proof.
  intros H Hbf Hp Ht. apply exec_inv in H.
  split.
  { unfold playing in Hp. apply andb_true_iff in Hp. destruct Hp as [_ Hx].
    destr_state s. cbn in *. subst.
    unfold handleSeekEnd. cbn. destruct pl, sr; reflexivity. }
  unfold seek.
  (* mouse down *)
  assert (Ia : Inv (step SeekStart s)) by (apply step_inv; auto).
  assert (Aa : app (step SeekStart s) = app s)
    by (unfold step; rewrite commit_app; reflexivity).
  assert (Da : isDragging (local (step SeekStart s)) = true)
    by (unfold step; rewrite commit_dragging; reflexivity).
  remember (step SeekStart s) as sa eqn:Ea. clear Ea.
  (* change *)
  assert (Eb : step (SeekChange t) sa = handleSeekChange t sa).
  { apply commit_settled. destruct Ia as (_ & Hs & _). exact Hs. }
  assert (Ib : Inv (step (SeekChange t) sa)).
  { apply commit_inv; apply handleSeekChange_maintained; auto. }
  rewrite Eb in *.
  assert (Pb : playing (handleSeekChange t sa) = true).
  { unfold playing in *. cbn. rewrite Aa. exact Hp. }
  assert (Bb : audioBuffer (app (handleSeekChange t sa)) = Some d).
  { cbn. rewrite Aa. exact Hbf. }
  assert (Cb : currentTime (local (handleSeekChange t sa)) = t) by reflexivity.
  assert (Db : isDragging (local (handleSeekChange t sa)) = true) by exact Da.
  remember (handleSeekChange t sa) as sb eqn:Eb'. clear Eb'.
  (* mouse up *)
  destruct (seekEnd_playing sb d Ib Pb Db Bb) as (R1 & R2 & R3 & R4 & R5 & R6).
  rewrite Cb in *.
  split; [exact R1|]. split; [exact R2|].
  exists (S (nextNode (world sb))), (mkNode t (now (world sb)) d true).
  auto.
Qed.

Lemma seek_sets_offset_witness :
  let s := reached loaded10 in
  (exec loaded10 init = Some s
   /\ audioBuffer (app s) = Some 10000
   /\ playing s = true
   /\ 0 <= 7500)
  /\ pausedAtRef (refs (handleSeekEnd (handleSeekChange 7500 s))) = 7500
  /\ pausedAtRef (refs (seek 7500 s)) = 7500
  /\ playing (seek 7500 s) = true
  /\ exists h nd,
       sourceRef (refs (seek 7500 s)) = Some h
       /\ live (audio (world (seek 7500 s))) = [h]
       /\ findNode h (audio (world (seek 7500 s))) = Some nd
       /\ nodeOffset nd = 7500.
Proof.
  assert (X : exec loaded10 init = Some (reached loaded10))
    by (vm_compute; reflexivity).
  assert (B : audioBuffer (app (reached loaded10)) = Some 10000)
    by (vm_compute; reflexivity).
  assert (P : playing (reached loaded10) = true) by (vm_compute; reflexivity).
  assert (T : 0 <= 7500) by lia.
  split; [auto|].
  apply (seek_sets_offset loaded10 (reached loaded10) 10000 7500 X B P T).
Defined.

(** ** Loading and closing *)

Lemma handle_presynced e s : settled s -> synced s -> presynced (handle e s).
Proof.
  intros Hs [Hp Hd]. unfold settled in Hs. destr_state s.
  unfold presynced, synced in *. cbn in *. inversion Hs; subst.
  destruct e; cbn [handle].
  - unfold initAudio. cbn. destruct lc; cbn; auto.
  - unfold handlePlayAudio, initAudio, setIsAudioPlaying. cbn.
    destruct same, lb, lc, lp; cbn; auto.
  - unfold audioLoaded, setIsAudioPlaying. cbn. destruct lp; cbn; auto.
  - unfold onTogglePlay, setIsAudioPlaying. cbn. destruct lp; cbn; auto.
  - unfold onClose, setIsAudioPlaying. cbn. destruct lp; cbn; auto.
  - cbn. auto.
  - cbn. auto.
  - unfold handleSeekEnd. cbn.
    destruct lb as [d|]; [|cbn; auto].
    destruct lc; [|cbn; auto].
    destruct lp, sr; cbn; split; auto; discriminate.
  - cbn. destruct (findFrame i fr) as [cb|]; [|cbn; auto].
    unfold updateProgress. destruct (cbDragging cb), (cbPlaying cb); cbn; auto.
  - cbn. destruct (findNode h au) as [nd|]; [|cbn; auto].
    unfold onended, setIsAudioPlaying. cbn.
    destruct (nw - st >=? nodeBuffer nd - EPSILON); cbn; auto.
    destruct (Bool.eqb (negb (nodePlaying nd)) lp); cbn; auto.
  - cbn. auto.
  - cbn. auto.
Qed.

Lemma commit_synced s : presynced s -> synced (commit s).
Proof.
  intros [Hp Hd]. destr_state s. unfold presynced, synced, commit in *.
  cbn in *.
  destruct (deps_eqb _ _) eqn:E.
  - apply deps_eqb_eq in E. inversion E; subst. cbn. auto.
  - unfold playbackEffect, durationEffect, cleanup.
    destruct bf as [d|], lb as [d'|]; cbn;
      try (destruct (d =? d') eqn:Ed; [apply Z.eqb_eq in Ed; subst|]);
      destruct ar, sr, cx, pl, dr; cbn; auto;
      try (split; [intros Hq; try discriminate Hq; auto | auto]).
Qed.

Lemma exec_synced_from evs :
  forall s s', Inv s -> synced s -> exec evs s = Some s' -> synced s'.
Proof.
  induction evs as [|e r IH]; intros s s' HI Hy H; cbn in H.
  - inversion H; subst; exact Hy.
  - destruct (enabled e s) eqn:He; [|discriminate].
    apply (IH (step e s)); [apply step_inv; assumption| |exact H].
    apply commit_synced, handle_presynced; [apply HI|exact Hy].
Qed.

Lemma exec_synced evs s : exec evs init = Some s -> synced s.
Proof.
  apply exec_synced_from; [apply init_inv|].
  split; reflexivity.
Qed.

(** X1. In every reachable state the duration shown by the player is the
    duration of the loaded buffer (0 without one), which makes the clip
    length the [max] of the slider; while no buffer is loaded the stored
    offset is 0 and nothing sounds. *)
Theorem duration_tracks_buffer evs s :
  exec evs init = Some s ->
  duration (local s)
  = match audioBuffer (app s) with Some d => d | None => 0 end
  /\ match audioBuffer (app s) with
     | Some d => sliderMax s = d
     | None => pausedAtRef (refs s) = 0 /\ live (audio (world s)) = []
     end.
Proof.
  intros H. pose proof (exec_synced _ _ H) as [Hp Hd].
  apply exec_inv in H. destruct H as ((_ & _ & _ & Hb) & _ & Hc).
  split; [exact Hd|].
  destruct Hb as (_ & _ & _ & Hpos & _).
  unfold corr, playing, sliderMax in *. rewrite Hd.
  destruct (audioBuffer (app s)) as [d|].
  - specialize (Hpos d eq_refl).
    destruct (d =? 0) eqn:E; [apply Z.eqb_eq in E; lia|reflexivity].
  - rewrite andb_false_r in Hc. cbn in Hc. split; [auto|apply Hc].
Qed.

Lemma duration_tracks_buffer_witness :
  exec loaded10 init = Some (reached loaded10)
  /\ duration (local (reached loaded10))
     = match audioBuffer (app (reached loaded10)) with
       | Some d => d
       | None => 0
       end
  /\ match audioBuffer (app (reached loaded10)) with
     | Some d => sliderMax (reached loaded10) = d
     | None => pausedAtRef (refs (reached loaded10)) = 0
               /\ live (audio (world (reached loaded10))) = []
     end.
Proof.
  assert (X : exec loaded10 init = Some (reached loaded10))
    by (vm_compute; reflexivity).
  split; [exact X|]. apply (duration_tracks_buffer loaded10 _ X).
Defined.

(** X2. A clip that arrives while no clip is loaded starts playing at
    once, from offset 0: a new node is started at offset 0, it is the only
    one sounding, [startTimeRef] is the current clock reading and the
    duration shown is that of the clip. *)
Theorem new_clip_starts_at_zero evs s d :
  exec evs init = Some s ->
  audioBuffer (app s) = None ->
  audioContext (app s) = true ->
  0 < d ->
  let s' := step (AudioLoaded d) s in
  playing s' = true
  /\ sourceRef (refs s') = Some (nextNode (world s))
  /\ live (audio (world s')) = [nextNode (world s)]
  /\ findNode (nextNode (world s)) (audio (world s'))
     = Some (mkNode 0 (now (world s)) d true)
  /\ startTimeRef (refs s') = now (world s)
  /\ duration (local s') = d.
Proof.
  intros H Hb Hx Hd. pose proof (exec_synced _ _ H) as [Hp _].
  apply exec_inv in H. destruct H as (_ & Hs & Hc).
  specialize (Hp Hb).
  unfold corr, playing in Hc. rewrite Hb, andb_false_r in Hc. cbn in Hc.
  destruct Hc as [Hl _].
  destr_state s. unfold settled in Hs. cbn in *. inversion Hs; subst.
  unfold step, handle, audioLoaded, setIsAudioPlaying, commit. cbn.
  rewrite deps_changed_toggle by (destruct lp; cbn; lia).
  unfold playing, playbackEffect, durationEffect, cleanup.
  destruct lp, ar, sr; cbn; rewrite ?Hl; cbn; rewrite ?Nat.eqb_refl;
    repeat split; auto; f_equal; lia.
Qed.

Lemma new_clip_starts_at_zero_witness :
  let s := reached [InitAudio; PlayAudio false] in
  let s' := step (AudioLoaded 10000) s in
  (exec [InitAudio; PlayAudio false] init = Some s
   /\ audioBuffer (app s) = None
   /\ audioContext (app s) = true
   /\ 0 < 10000)
  /\ playing s' = true
  /\ sourceRef (refs s') = Some (nextNode (world s))
  /\ live (audio (world s')) = [nextNode (world s)]
  /\ findNode (nextNode (world s)) (audio (world s'))
     = Some (mkNode 0 (now (world s)) 10000 true)
  /\ startTimeRef (refs s') = now (world s)
  /\ duration (local s') = 10000.
Proof.
  assert (X : exec [InitAudio; PlayAudio false] init
              = Some (reached [InitAudio; PlayAudio false]))
    by (vm_compute; reflexivity).
  assert (B : audioBuffer (app (reached [InitAudio; PlayAudio false])) = None)
    by (vm_compute; reflexivity).
  assert (C : audioContext (app (reached [InitAudio; PlayAudio false])) = true)
    by (vm_compute; reflexivity).
  assert (D : 0 < 10000) by lia.
  split; [auto|].
  apply (new_clip_starts_at_zero _ _ 10000 X B C D).
Defined.

(** X3. Closing the player while a clip is loaded unloads it: nothing
    sounds, no animation frame is pending, and the offset, the reported
    position and the duration are all 0. *)
Theorem close_resets evs s d :
  exec evs init = Some s ->
  audioBuffer (app s) = Some d ->
  let s' := step Close s in
  audioBuffer (app s') = None
  /\ isAudioPlaying (app s') = false
  /\ live (audio (world s')) = []
  /\ frames (world s') = []
  /\ pausedAtRef (refs s') = 0
  /\ currentTime (local s') = 0
  /\ duration (local s') = 0.
Proof.
  intros H Hb. cbn zeta.
  assert (X : exec (evs ++ [Close]) init = Some (step Close s)).
  { rewrite (exec_app _ _ _ _ H). reflexivity. }
  pose proof (exec_synced _ _ X) as [Hp Hd].
  pose proof (exec_inv _ _ X) as (_ & _ & Hc).
  assert (A : app (step Close s) = app (onClose s))
    by (unfold step; apply commit_app).
  assert (B : audioBuffer (app (step Close s)) = None)
    by (rewrite A; reflexivity).
  unfold corr, playing in Hc. rewrite B, andb_false_r in Hc. cbn in Hc.
  rewrite B in Hd.
  repeat split; auto; try apply Hc.
  - rewrite A. destr_state s. unfold onClose, setIsAudioPlaying. cbn.
    destruct pl; reflexivity.
  - apply exec_inv in H. destruct H as (_ & Hs & _).
    destr_state s. unfold settled in Hs. cbn in *. inversion Hs; subst.
    unfold step, handle, onClose, setIsAudioPlaying, commit. cbn.
    rewrite deps_changed_toggle by (destruct lp; cbn; lia).
    unfold playbackEffect, durationEffect, cleanup.
    destruct lp, ar, sr; reflexivity.
Qed.

Lemma close_resets_witness :
  let s' := step Close (reached loaded10) in
  (exec loaded10 init = Some (reached loaded10)
   /\ audioBuffer (app (reached loaded10)) = Some 10000)
  /\ audioBuffer (app s') = None
  /\ isAudioPlaying (app s') = false
  /\ live (audio (world s')) = []
  /\ frames (world s') = []
  /\ pausedAtRef (refs s') = 0
  /\ currentTime (local s') = 0
  /\ duration (local s') = 0.
Proof.
  assert (X : exec loaded10 init = Some (reached loaded10))
    by (vm_compute; reflexivity).
  assert (B : audioBuffer (app (reached loaded10)) = Some 10000)
    by (vm_compute; reflexivity).
  split; [auto|].
  apply (close_resets _ _ 10000 X B).
Defined.

(** ** More on the tracker and on completion *)

(** X4. While Playing exactly one animation frame is pending: it is the
    one [animationRef] names, so the cleanup can cancel it, and its closure
    holds the current [isDragging] and buffer.  While not Playing no frame
    is pending. *)
Theorem one_pending_frame evs s :
  exec evs init = Some s ->
  if playing s
  then exists cb,
         frames (world s) = [(animationRef (refs s), cb)]
         /\ cbDragging cb = isDragging (local s)
         /\ audioBuffer (app s) = Some (cbBuffer cb)
  else frames (world s) = [].
Proof.
  intros H. apply exec_inv in H.
  destruct H as ((_ & _ & Hf & _) & Hs & Hc).
  unfold corr in Hc. destruct (playing s); [|apply Hc].
  destruct Hc as [_ Hfr].
  destruct Hf as [Hf | (cb & Hf & F1 & F2 & _)]; [contradiction|].
  unfold settled in Hs. rewrite <- Hs in F1, F2.
  exists cb. auto.
Qed.

Lemma one_pending_frame_witness :
  exec loaded10 init = Some (reached loaded10)
  /\ if playing (reached loaded10)
     then exists cb,
            frames (world (reached loaded10))
            = [(animationRef (refs (reached loaded10)), cb)]
            /\ cbDragging cb = isDragging (local (reached loaded10))
            /\ audioBuffer (app (reached loaded10)) = Some (cbBuffer cb)
     else frames (world (reached loaded10)) = [].
Proof.
  assert (X : exec loaded10 init = Some (reached loaded10))
    by (vm_compute; reflexivity).
  split; [exact X|]. apply (one_pending_frame loaded10 _ X).
Defined.

Lemma mem_drop h l : mem h l = false -> drop h l = l.
Proof.
  unfold mem, drop. induction l as [|x r IH]; cbn; [reflexivity|].
  intros H. apply orb_false_iff in H. destruct H as [Hx Hr].
  rewrite Nat.eqb_sym, Hx. cbn. f_equal. apply IH, Hr.
Qed.

(** X5. The [ended] event of a node that is no longer sounding, delivered
    while the current segment is more than [EPSILON] short of the end of
    that node's buffer, is ignored: apart from the event being logged the
    state is unchanged, so playback, emitter, offset and position are as
    before. *)
Theorem stale_ended_ignored evs s h nd :
  exec evs init = Some s ->
  findNode h (audio (world s)) = Some nd ->
  mem h (live (audio (world s))) = false ->
  now (world s) - startTimeRef (refs s) < nodeBuffer nd - EPSILON ->
  step (Ended h) s = logOp (OpEnded h) s
  /\ live (audio (world (step (Ended h) s))) = live (audio (world s))
  /\ activeEmitter (step (Ended h) s) = activeEmitter s.
Proof.
  intros H Hfind Hm Hlt. apply exec_inv in H. destruct H as (_ & Hs & _).
  assert (E : step (Ended h) s = logOp (OpEnded h) s).
  { unfold step, handle. rewrite Hfind.
    rewrite onended_ignored by exact Hlt.
    apply commit_settled. exact Hs. }
  rewrite E. unfold activeEmitter. cbn. rewrite (mem_drop _ _ Hm). auto.
Qed.

Lemma stale_ended_ignored_witness :
  let s := reached (loaded10 ++ [Advance 1000; SeekStart; SeekChange 5000;
                                 SeekEnd]) in
  (exec (loaded10 ++ [Advance 1000; SeekStart; SeekChange 5000; SeekEnd]) init
   = Some s
   /\ findNode 0 (audio (world s)) = Some (mkNode 0 0 10000 true)
   /\ mem 0 (live (audio (world s))) = false
   /\ now (world s) - startTimeRef (refs s) < 10000 - EPSILON)
  /\ step (Ended 0) s = logOp (OpEnded 0) s
  /\ live (audio (world (step (Ended 0) s))) = live (audio (world s))
  /\ activeEmitter (step (Ended 0) s) = activeEmitter s.
Proof.
  assert (X : exec (loaded10 ++ [Advance 1000; SeekStart; SeekChange 5000;
                                 SeekEnd]) init
              = Some (reached (loaded10 ++ [Advance 1000; SeekStart;
                                            SeekChange 5000; SeekEnd])))
    by (vm_compute; reflexivity).
  assert (F : findNode 0 (audio (world (reached (loaded10 ++
                [Advance 1000; SeekStart; SeekChange 5000; SeekEnd]))))
              = Some (mkNode 0 0 10000 true)) by (vm_compute; reflexivity).
  assert (M : mem 0 (live (audio (world (reached (loaded10 ++
                [Advance 1000; SeekStart; SeekChange 5000; SeekEnd])))))
              = false) by (vm_compute; reflexivity).
  assert (L : now (world (reached (loaded10 ++
                [Advance 1000; SeekStart; SeekChange 5000; SeekEnd])))
              - startTimeRef (refs (reached (loaded10 ++
                [Advance 1000; SeekStart; SeekChange 5000; SeekEnd])))
              < nodeBuffer (mkNode 0 0 10000 true) - EPSILON)
    by (vm_compute; reflexivity).
  split; [auto|].
  apply (stale_ended_ignored _ _ 0%nat (mkNode 0 0 10000 true) X F M L).
Defined.

(** ** Re-renders of [App] *)

Lemma step_render s :
  settled s ->
  step AppRender s
  = playbackEffect
      (if cleanupArmed (hooks s) then cleanup (renderApp s) else renderApp s).
Proof.
  intros Hs. unfold step, handle. rewrite commit_bumped.
  - reflexivity.
  - destr_state s. unfold settled in Hs. inversion Hs; subst. cbn. lia.
  - destr_state s. unfold settled in Hs. inversion Hs; subst. reflexivity.
Qed.

(** X6. Any re-render of [App] while Playing (the inline [onTogglePlay]
    is a dependency of the playback effect) replaces the emitter by one
    started at the stored offset [pausedAtRef], the offset at which the
    segment began, not at the position reached: playback jumps back to the
    beginning of the segment. *)
Theorem rerender_restarts_segment evs s d :
  exec evs init = Some s ->
  playing s = true ->
  audioBuffer (app s) = Some d ->
  let s' := step AppRender s in
  playing s' = true
  /\ sourceRef (refs s') = Some (nextNode (world s))
  /\ live (audio (world s')) = [nextNode (world s)]
  /\ findNode (nextNode (world s)) (audio (world s'))
     = Some (mkNode (pausedAtRef (refs s)) (now (world s)) d true)
  /\ startTimeRef (refs s') = now (world s) - pausedAtRef (refs s)
  /\ pausedAtRef (refs s') = pausedAtRef (refs s).
Proof.
  intros H Hp Hb. apply exec_inv in H.
  destruct H as ((Hex & Hn & Hf & _) & Hs & Hc). cbn zeta.
  rewrite (step_render s Hs).
  unfold corr in Hc. rewrite Hp in Hc. destruct Hc as [Hl _].
  destruct Hn as [Hn | (h & nd & Hn & Hr & _ & _ & _ & Ha)]; [contradiction|].
  unfold playing in Hp. apply andb_true_iff in Hp. destruct Hp as [Hp Hx].
  apply andb_true_iff in Hp. destruct Hp as [Hp _].
  destr_state s. cbn in *. subst.
  unfold playing, renderApp, playbackEffect, cleanup. cbn.
  rewrite Hn, drop_same. cbn. rewrite Nat.eqb_refl. auto 10.
Qed.

Lemma rerender_restarts_segment_witness :
  let s := reached (loaded10 ++ [Advance 3000]) in
  let s' := step AppRender s in
  (exec (loaded10 ++ [Advance 3000]) init = Some s
   /\ playing s = true
   /\ audioBuffer (app s) = Some 10000)
  /\ playing s' = true
  /\ sourceRef (refs s') = Some (nextNode (world s))
  /\ live (audio (world s')) = [nextNode (world s)]
  /\ findNode (nextNode (world s)) (audio (world s'))
     = Some (mkNode (pausedAtRef (refs s)) (now (world s)) 10000 true)
  /\ startTimeRef (refs s') = now (world s) - pausedAtRef (refs s)
  /\ pausedAtRef (refs s') = pausedAtRef (refs s).
Proof.
  assert (X : exec (loaded10 ++ [Advance 3000]) init
              = Some (reached (loaded10 ++ [Advance 3000])))
    by (vm_compute; reflexivity).
  assert (P : playing (reached (loaded10 ++ [Advance 3000])) = true)
    by (vm_compute; reflexivity).
  assert (B : audioBuffer (app (reached (loaded10 ++ [Advance 3000])))
              = Some 10000) by (vm_compute; reflexivity).
  split; [auto|].
  apply (rerender_restarts_segment _ _ 10000 X P B).
Defined.

(** X7. Any re-render of [App] while a clip is loaded, not playing and
    not being scrubbed runs the pause branch again, which overwrites the
    stored offset with [now - startTimeRef]: the offset grows with the
    clock while paused. *)
Theorem rerender_resaves_offset evs s d :
  exec evs init = Some s ->
  isAudioPlaying (app s) = false ->
  audioBuffer (app s) = Some d ->
  isDragging (local s) = false ->
  let s' := step AppRender s in
  pausedAtRef (refs s') = now (world s) - startTimeRef (refs s)
  /\ playing s' = false
  /\ live (audio (world s')) = [].
Proof.
  intros H Hp Hb Hd. apply exec_inv in H.
  destruct H as ((_ & _ & _ & Hbd) & Hs & Hc). cbn zeta.
  rewrite (step_render s Hs).
  destruct Hbd as (_ & _ & _ & _ & Hx).
  rewrite Hb in Hx. specialize (Hx ltac:(discriminate)).
  unfold corr, playing in Hc. rewrite Hp in Hc. cbn in Hc.
  destruct Hc as [Hl _].
  destr_state s. cbn in *. subst.
  unfold playing, renderApp, playbackEffect, cleanup.
  destruct ar, sr; cbn; rewrite ?Hl; auto.
Qed.

Lemma rerender_resaves_offset_witness :
  let s := reached (pausedAt3 ++ [Advance 20000]) in
  let s' := step AppRender s in
  (exec (pausedAt3 ++ [Advance 20000]) init = Some s
   /\ isAudioPlaying (app s) = false
   /\ audioBuffer (app s) = Some 10000
   /\ isDragging (local s) = false)
  /\ pausedAtRef (refs s') = now (world s) - startTimeRef (refs s)
  /\ playing s' = false
  /\ live (audio (world s')) = [].
Proof.
  assert (X : exec (pausedAt3 ++ [Advance 20000]) init
              = Some (reached (pausedAt3 ++ [Advance 20000])))
    by (vm_compute; reflexivity).
  assert (P : isAudioPlaying (app (reached (pausedAt3 ++ [Advance 20000])))
              = false) by (vm_compute; reflexivity).
  assert (B : audioBuffer (app (reached (pausedAt3 ++ [Advance 20000])))
              = Some 10000) by (vm_compute; reflexivity).
  assert (D : isDragging (local (reached (pausedAt3 ++ [Advance 20000])))
              = false) by (vm_compute; reflexivity).
  split; [auto|].
  apply (rerender_resaves_offset _ _ 10000 X P B D).
Defined.

(** ** Offsets handed to [source.start] *)

Lemma commit_starts s :
  startsNonneg (audio (world s)) -> 0 <= pausedAtRef (refs s) ->
  startsNonneg (audio (world (commit s))).
Proof.
  intros Hn Hp. destr_state s. unfold startsNonneg, commit in *. cbn in *.
  destruct (deps_eqb _ _); [exact Hn|].
  unfold playbackEffect, durationEffect, cleanup.
  destruct ar, sr, bf, cx, pl, dr, (optZ_eqb _ lb); cbn;
    repeat (apply Forall_cons; [cbn; auto; lia|]); exact Hn.
Qed.

Lemma handle_starts e s :
  startsNonneg (audio (world s)) -> 0 <= currentTime (local s) ->
  startsNonneg (audio (world (handle e s))).
Proof.
  intros Hn Hc. destr_state s. unfold startsNonneg in *. cbn in *.
  destruct e; cbn [handle].
  - unfold initAudio. cbn. destruct cx; exact Hn.
  - unfold handlePlayAudio, initAudio, setIsAudioPlaying. cbn.
    destruct same, bf, cx, pl; exact Hn.
  - unfold audioLoaded, setIsAudioPlaying. cbn. destruct pl; exact Hn.
  - unfold onTogglePlay, setIsAudioPlaying. cbn. destruct pl; exact Hn.
  - unfold onClose, setIsAudioPlaying. cbn. destruct pl; exact Hn.
  - exact Hn.
  - exact Hn.
  - unfold handleSeekEnd. cbn.
    destruct bf, cx, pl, sr; cbn;
      repeat (apply Forall_cons; [cbn; auto|]); exact Hn.
  - cbn. destruct (findFrame i fr) as [cb|]; [|exact Hn].
    unfold updateProgress. destruct (cbDragging cb), (cbPlaying cb); exact Hn.
  - cbn. destruct (findNode h au) as [nd|]; [|exact Hn].
    unfold onended, setIsAudioPlaying. cbn.
    destruct (nw - st >=? nodeBuffer nd - EPSILON); cbn;
      [destruct (Bool.eqb (negb (nodePlaying nd)) pl); cbn|];
      apply Forall_cons; cbn; auto.
  - exact Hn.
  - exact Hn.
Qed.

Lemma exec_starts_from evs :
  forall s s',
    Inv s -> startsNonneg (audio (world s)) -> exec evs s = Some s' ->
    startsNonneg (audio (world s')).
Proof.
  induction evs as [|e r IH]; intros s s' HI Hn H; cbn in H.
  - inversion H; subst; exact Hn.
  - destruct (enabled e s) eqn:He; [|discriminate].
    apply (IH (step e s)); [apply step_inv; assumption| |exact H].
    destruct (handle_maintained e s HI He) as [(_ & _ & _ & Hb) _].
    apply commit_starts; [|apply Hb].
    apply handle_starts; [exact Hn|].
    destruct HI as ((_ & _ & _ & Hb') & _). apply Hb'.
Qed.

(** X8. Every node the player ever starts is started at a non-negative
    offset, so no call of [source.start] throws a [RangeError]. *)
Theorem start_offsets_nonnegative evs s h nd :
  exec evs init = Some s ->
  findNode h (audio (world s)) = Some nd ->
  0 <= nodeOffset nd.
Proof.
  intros H Hfind.
  assert (Hn : startsNonneg (audio (world s))).
  { apply (exec_starts_from evs init s); [apply init_inv|constructor|exact H]. }
  unfold startsNonneg in Hn. clear H.
  induction (audio (world s)) as [|op r IH]; [discriminate|].
  inversion Hn as [|? ? Hop Hr]; subst.
  destruct op as [h' nd'| |]; cbn in Hfind; auto.
  destruct (Nat.eqb h' h); [inversion Hfind; subst; exact Hop|auto].
Qed.

Lemma start_offsets_nonnegative_witness :
  let s := reached seekNearEnd in
  (exec seekNearEnd init = Some s
   /\ findNode 3 (audio (world s)) = Some (mkNode 9950 1000 10000 true))
  /\ 0 <= nodeOffset (mkNode 9950 1000 10000 true).
Proof.
  assert (X : exec seekNearEnd init = Some (reached seekNearEnd))
    by (vm_compute; reflexivity).
  assert (F : findNode 3 (audio (world (reached seekNearEnd)))
              = Some (mkNode 9950 1000 10000 true))
    by (vm_compute; reflexivity).
  split; [auto|].
  apply (start_offsets_nonnegative _ _ 3%nat _ X F).
Defined.

(** ** Resuming and ticking *)

(** The effects never touch the clock. *)
Lemma commit_now s : now (world (commit s)) = now (world s).
Proof.
  destr_state s. unfold commit.
  destruct (deps_eqb _ _); [reflexivity|].
  unfold playbackEffect, durationEffect, cleanup. cbn.
  destruct ar, sr, bf, cx, pl, dr, (optZ_eqb _ lb); reflexivity.
Qed.

Lemma frame_step i cb s :
  Inv s -> findFrame i (frames (world s)) = Some cb ->
  currentTime (local (step (Frame i) s))
  = if isDragging (local s) then currentTime (local s)
    else Z.min (now (world s) - startTimeRef (refs s)) (cbBuffer cb).
Proof.
  intros ((_ & _ & Hf & _) & Hs & _) Hi.
  unfold step, handle. rewrite Hi.
  rewrite (commit_settled _ (updateProgress_settled i cb s Hs)).
  destruct Hf as [Hf | (cb' & Hf & F1 & _ & F3 & _)];
    [rewrite Hf in Hi; discriminate|].
  rewrite Hf in Hi. apply findFrame_single in Hi. destruct Hi as [-> ->].
  unfold settled in Hs. rewrite <- Hs in F1.
  destr_state s. cbn in *.
  unfold updateProgress. rewrite F1, F3. destruct dr; reflexivity.
Qed.

(** X9. Resuming a paused clip and letting [u] milliseconds pass, the
    next tick of the tracker reports the stored offset plus [u], capped at
    the duration of the clip. *)
Theorem resume_then_tick evs s d u :
  exec evs init = Some s ->
  isAudioPlaying (app s) = false ->
  audioBuffer (app s) = Some d ->
  isDragging (local s) = false ->
  0 <= u ->
  let s2 := step (Advance u) (step TogglePlay s) in
  exists i cb,
    findFrame i (frames (world s2)) = Some cb
    /\ currentTime (local (step (Frame i) s2))
       = Z.min (pausedAtRef (refs s) + u) d.
Proof.
  intros H Hp Hb Hd Hu. cbn zeta.
  assert (X1 : exec (evs ++ [TogglePlay]) init = Some (step TogglePlay s)).
  { rewrite (exec_app _ _ _ _ H). reflexivity. }
  pose proof (exec_inv _ _ X1) as I1.
  apply exec_inv in H.
  destruct (play_from_paused s d H Hp Hb) as (R1 & _ & _ & _ & R5 & _).
  assert (D1 : isDragging (local (step TogglePlay s)) = false).
  { unfold step. rewrite commit_dragging. destr_state s.
    unfold handle, onTogglePlay, setIsAudioPlaying. cbn in *.
    destruct pl; cbn; exact Hd. }
  assert (B1 : audioBuffer (app (step TogglePlay s)) = Some d).
  { unfold step. rewrite commit_app. destr_state s.
    unfold handle, onTogglePlay, setIsAudioPlaying. cbn in *.
    destruct pl; cbn; exact Hb. }
  assert (N1 : now (world (step TogglePlay s)) = now (world s)).
  { unfold step. rewrite commit_now. destr_state s.
    unfold handle, onTogglePlay, setIsAudioPlaying. cbn.
    destruct pl; reflexivity. }
  remember (step TogglePlay s) as s1 eqn:E1. clear E1.
  pose proof I1 as ((_ & _ & Hf & _) & Hs1 & Hc1).
  unfold corr in Hc1. rewrite R1 in Hc1. destruct Hc1 as [_ Hfr].
  destruct Hf as [Hf | (cb & Hf & _ & F2 & _)]; [contradiction|].
  unfold settled in Hs1. rewrite <- Hs1 in F2. cbn in F2.
  rewrite B1 in F2. inversion F2 as [Ed].
  assert (E2 : step (Advance u) s1 = advance u s1)
    by (apply step_advance; exact Hs1).
  assert (I2 : Inv (step (Advance u) s1)).
  { apply step_inv; [exact I1|]. apply Z.leb_le. exact Hu. }
  rewrite E2 in *.
  assert (Hi : findFrame (animationRef (refs s1))
                 (frames (world (advance u s1))) = Some cb).
  { cbn. rewrite Hf. cbn. rewrite Nat.eqb_refl. reflexivity. }
  exists (animationRef (refs s1)), cb. split; [exact Hi|].
  rewrite (frame_step _ _ _ I2 Hi). cbn.
  rewrite D1, R5, N1, <- Ed. f_equal. lia.
Qed.

Lemma resume_then_tick_witness :
  let s := reached pausedAt3 in
  let s2 := step (Advance 2000) (step TogglePlay s) in
  (exec pausedAt3 init = Some s
   /\ isAudioPlaying (app s) = false
   /\ audioBuffer (app s) = Some 10000
   /\ isDragging (local s) = false
   /\ 0 <= 2000)
  /\ exists i cb,
       findFrame i (frames (world s2)) = Some cb
       /\ currentTime (local (step (Frame i) s2))
          = Z.min (pausedAtRef (refs s) + 2000) 10000.
Proof.
  assert (X : exec pausedAt3 init = Some (reached pausedAt3))
    by (vm_compute; reflexivity).
  assert (P : isAudioPlaying (app (reached pausedAt3)) = false)
    by (vm_compute; reflexivity).
  assert (B : audioBuffer (app (reached pausedAt3)) = Some 10000)
    by (vm_compute; reflexivity).
  assert (D : isDragging (local (reached pausedAt3)) = false)
    by (vm_compute; reflexivity).
  assert (U : 0 <= 2000) by lia.
  split; [auto|].
  apply (resume_then_tick _ _ 10000 2000 X P B D U).
Defined.

(** ** [formatTime] *)

Lemma secondsField_table :
  forallb secondsFieldOK (map Z.of_nat (seq 0 60)) = true.
Proof. vm_compute. reflexivity. Qed.

Lemma secondsField_ok n : 0 <= n < 60 -> secondsFieldOK n = true.
Proof.
  intros Hn. pose proof secondsField_table as T.
  rewrite forallb_forall in T. apply T.
  apply in_map_iff. exists (Z.to_nat n). split; [lia|].
  apply in_seq. lia.
Qed.

Lemma whole_seconds t :
  0 <= t -> Z.rem t 60000 / 1000 = (t / 1000) mod 60.
Proof.
  intros Ht. rewrite Z.rem_mod_nonneg by lia.
  change 60000 with (1000 * 60). rewrite Z.rem_mul_r by lia.
  rewrite Z.mul_comm, Z.div_add by lia.
  rewrite Z.div_small by (apply Z.mod_pos_bound; lia). reflexivity.
Qed.

(** X10. For a non-negative time, [formatTime] prints the whole minutes,
    a colon and a seconds field of exactly two characters whose value is
    the whole seconds within the minute; minutes and seconds together give
    back the time in whole seconds. *)
Theorem formatTime_fields t :
  0 <= t ->
  exists ss d,
    formatTime t
    = String.append (numberToString (t / 60000)) (String.append ":" ss)
    /\ String.length ss = 2%nat
    /\ DecimalString.NilZero.int_of_string ss = Some d
    /\ 0 <= Z.of_int d < 60
    /\ 60 * (t / 60000) + Z.of_int d = t / 1000.
Proof.
  intros Ht. unfold formatTime. cbn zeta.
  rewrite (whole_seconds t Ht).
  assert (Hs : 0 <= (t / 1000) mod 60 < 60) by (apply Z.mod_pos_bound; lia).
  pose proof (secondsField_ok _ Hs) as Hok.
  unfold secondsFieldOK in Hok. apply andb_true_iff in Hok.
  destruct Hok as [Hlen Hval]. apply Nat.eqb_eq in Hlen.
  fold (secondsField ((t / 1000) mod 60)).
  destruct (DecimalString.NilZero.int_of_string
              (secondsField ((t / 1000) mod 60))) as [d|] eqn:E;
    [|discriminate].
  apply Z.eqb_eq in Hval.
  exists (secondsField ((t / 1000) mod 60)), d.
  repeat split; auto; try lia.
  rewrite Hval.
  assert (H1 : t / 60000 = t / 1000 / 60).
  { change 60000 with (1000 * 60). rewrite Zdiv_Zdiv by lia. reflexivity. }
  rewrite H1. pose proof (Z.div_mod (t / 1000) 60). lia.
Qed.

Lemma formatTime_fields_witness :
  0 <= 83500
  /\ exists ss d,
       formatTime 83500
       = String.append (numberToString (83500 / 60000)) (String.append ":" ss)
       /\ String.length ss = 2%nat
       /\ DecimalString.NilZero.int_of_string ss = Some d
       /\ 0 <= Z.of_int d < 60
       /\ 60 * (83500 / 60000) + Z.of_int d = 83500 / 1000.
Proof.
  assert (H : 0 <= 83500) by lia.
  split; [exact H|]. apply (formatTime_fields 83500 H).
Defined.

Example formatTime_83_5_seconds : formatTime 83500 = "1:23"%string.
Proof. vm_compute. reflexivity. Qed.

(** ** Date navigation *)

(** X11. The next-day button is disabled exactly when [handleNextDay]
    would leave the date as it is. *)
Theorem next_disabled_iff_noop today viewDate :
  isNextDisabled today viewDate = true
  <-> handleNextDay today viewDate = viewDate.
Proof.
  unfold isNextDisabled, handleNextDay. cbn.
  destruct viewDate as [d m]. cbn.
  rewrite Z.ltb_lt. split.
  - intros H. destruct (d + 1 <=? dayOf today - 1) eqn:E; [|reflexivity].
    apply Z.leb_le in E. lia.
  - intros H. destruct (d + 1 <=? dayOf today - 1) eqn:E.
    + inversion H. lia.
    + apply Z.leb_gt in E. lia.
Qed.

Lemma navExec_inv evs :
  forall st st',
    dayOf (snd st) <= dayOf (fst st) - 1 ->
    navExec evs st = Some st' ->
    dayOf (snd st') <= dayOf (fst st') - 1.
Proof.
  induction evs as [|e r IH]; intros st st' Hi H; cbn in H.
  - inversion H; subst; exact Hi.
  - destruct (navEnabled e st) eqn:He; [|discriminate].
    apply (IH (navStep e st)); [|exact H].
    destruct st as [today v], e; cbn in *.
    + lia.
    + unfold handleNextDay. cbn.
      destruct (dayOf v + 1 <=? dayOf today - 1) eqn:E; cbn; [|exact Hi].
      apply Z.leb_le in E. exact E.
    + apply Z.leb_le in He. lia.
Qed.

(** X12. Starting from yesterday, no sequence of previous-day and
    next-day clicks, with the wall clock moving forward in between, brings
    [viewDate] to today or later. *)
Theorem viewDate_before_today today0 evs today viewDate :
  navExec evs (today0, initialViewDate today0) = Some (today, viewDate) ->
  dayOf viewDate < dayOf today.
Proof.
  intros H.
  pose proof (navExec_inv evs (today0, initialViewDate today0)
                (today, viewDate)) as Hi.
  cbn in Hi. specialize (Hi ltac:(lia) H). lia.
Qed.

Lemma viewDate_before_today_witness :
  navExec [NavPrev; NavNext; NavNext; NavClock (mkDate 101 0); NavNext]
    (mkDate 100 3600000, initialViewDate (mkDate 100 3600000))
  = Some (mkDate 101 0, mkDate 100 0)
  /\ dayOf (mkDate 100 0) < dayOf (mkDate 101 0).
Proof.
  assert (X : navExec [NavPrev; NavNext; NavNext; NavClock (mkDate 101 0);
                       NavNext]
                (mkDate 100 3600000, initialViewDate (mkDate 100 3600000))
              = Some (mkDate 101 0, mkDate 100 0))
    by (vm_compute; reflexivity).
  split; [exact X|].
  apply (viewDate_before_today _ _ _ _ X).
Defined.

(** ** Objects as maps *)

Lemma lookupKey_setKey_eq {A} k (v : A) o : lookupKey k (setKey k v o) = Some v.
Proof.
  induction o as [|[k' v'] r IH]; cbn.
  - rewrite String.eqb_refl. reflexivity.
  - destruct (String.eqb k' k) eqn:E; cbn; rewrite E; auto.
Qed.

Lemma lookupKey_setKey_ne {A} k k' (v : A) o :
  k' <> k -> lookupKey k' (setKey k v o) = lookupKey k' o.
Proof.
  intros Hne. induction o as [|[k0 v0] r IH]; cbn.
  - destruct (String.eqb k k') eqn:E; [apply String.eqb_eq in E; congruence|].
    reflexivity.
  - destruct (String.eqb k0 k) eqn:E; cbn.
    + apply String.eqb_eq in E. subst k0.
      destruct (String.eqb k k') eqn:E'; [apply String.eqb_eq in E'; congruence|].
      reflexivity.
    + rewrite IH. reflexivity.
Qed.

Lemma Forall_setKey {A} (P : A -> Prop) k v o :
  Forall (fun p => P (snd p)) o -> P v ->
  Forall (fun p => P (snd p)) (setKey k v o).
Proof.
  intros Ho Hv. induction Ho as [|[k' v'] r Hx Hr IH]; cbn.
  - constructor; [exact Hv|constructor].
  - destruct (String.eqb k' k); constructor; auto.
Qed.

Lemma Forall_deleteKey {A} (P : string * A -> Prop) k o :
  Forall P o -> Forall P (deleteKey k o).
Proof.
  intros Ho. induction Ho as [|[k' v'] r Hx Hr IH]; cbn; [constructor|].
  destruct (String.eqb k' k); [exact Hr|constructor; auto].
Qed.

Lemma lookupKey_In {A} k (v : A) o : lookupKey k o = Some v -> In (k, v) o.
Proof.
  induction o as [|[k' v'] r IH]; cbn; [discriminate|].
  destruct (String.eqb k' k) eqn:E.
  - apply String.eqb_eq in E. intros H. inversion H. subst. left. reflexivity.
  - intros H. right. apply IH, H.
Qed.

Lemma lookupKey_Forall {A} (P : A -> Prop) k v o :
  Forall (fun p => P (snd p)) o -> lookupKey k o = Some v -> P v.
Proof.
  intros Ho Hl. apply lookupKey_In in Hl.
  rewrite Forall_forall in Ho. apply (Ho (k, v) Hl).
Qed.

Lemma In_setKey {A} k (v : A) o p :
  In p (setKey k v o) -> snd p = v \/ In p o.
Proof.
  induction o as [|[k' v'] r IH]; cbn.
  - intros [<-|[]]. left. reflexivity.
  - destruct (String.eqb k' k); cbn.
    + intros [<-|H]; [left; reflexivity|right; right; exact H].
    + intros [<-|H]; [right; left; reflexivity|].
      destruct (IH H) as [Hv|Hi]; [left; exact Hv|right; right; exact Hi].
Qed.

Lemma setKey_has {A} k (v : A) o : exists k', In (k', v) (setKey k v o).
Proof.
  induction o as [|[k' v'] r IH]; cbn.
  - exists k. left. reflexivity.
  - destruct (String.eqb k' k); cbn.
    + exists k'. left. reflexivity.
    + destruct IH as [k0 H]. exists k0. right. exact H.
Qed.

Lemma setKey_keys {A} k (v : A) o :
  NoDup (map fst o) -> NoDup (map fst (setKey k v o)).
Proof.
  intros Hn.
  induction o as [|[k' v'] r IH]; cbn.
  - constructor; [intros []|constructor].
  - cbn in Hn. inversion Hn as [|? ? Hnotin Hr]; subst.
    destruct (String.eqb k' k) eqn:E; cbn.
    + constructor; assumption.
    + constructor; [|apply IH, Hr].
      intros Hin. apply Hnotin. clear IH Hn Hr Hnotin.
      induction r as [|[k0 v0] r IH]; cbn in *.
      * destruct Hin as [Hin|[]]. subst k.
        rewrite String.eqb_refl in E. discriminate.
      * destruct (String.eqb k0 k); cbn in Hin.
        -- exact Hin.
        -- destruct Hin as [Hin|Hin]; [left; exact Hin|right; apply IH, Hin].
Qed.

Lemma In_deleteKey {A} k (o : list (string * A)) x :
  In x (map fst (deleteKey k o)) -> In x (map fst o).
Proof.
  induction o as [|[k' v'] r IH]; cbn; [auto|].
  destruct (String.eqb k' k); cbn.
  - intros H. right. exact H.
  - intros [H|H]; [left; exact H|right; apply IH, H].
Qed.

Lemma deleteKey_keys {A} k (o : list (string * A)) :
  NoDup (map fst o) -> NoDup (map fst (deleteKey k o)).
Proof.
  induction o as [|[k' v'] r IH]; cbn; [auto|].
  intros Hn. inversion Hn as [|? ? Hnotin Hr]; subst.
  destruct (String.eqb k' k); [exact Hr|].
  cbn. constructor; [|apply IH, Hr].
  intros Hin. apply Hnotin. apply (In_deleteKey k r k' Hin).
Qed.

Lemma lookupKey_notin {A} k (o : list (string * A)) :
  ~ In k (map fst o) -> lookupKey k o = None.
Proof.
  induction o as [|[k' v'] r IH]; cbn; [reflexivity|].
  intros Hn. destruct (String.eqb k' k) eqn:E.
  - apply String.eqb_eq in E. exfalso. apply Hn. left. exact E.
  - apply IH. intros H. apply Hn. right. exact H.
Qed.

Lemma lookupKey_deleteKey_eq {A} k (o : list (string * A)) :
  NoDup (map fst o) -> lookupKey k (deleteKey k o) = None.
Proof.
  induction o as [|[k' v'] r IH]; cbn; [reflexivity|].
  intros Hn. inversion Hn as [|? ? Hnotin Hr]; subst.
  destruct (String.eqb k' k) eqn:E.
  - apply String.eqb_eq in E. subst k'. apply lookupKey_notin, Hnotin.
  - cbn. rewrite E. apply IH, Hr.
Qed.

Lemma lookupKey_deleteKey_ne {A} k k' (o : list (string * A)) :
  k' <> k -> lookupKey k' (deleteKey k o) = lookupKey k' o.
Proof.
  intros Hne. induction o as [|[k0 v0] r IH]; cbn; [reflexivity|].
  destruct (String.eqb k0 k) eqn:E.
  - apply String.eqb_eq in E. subst k0.
    destruct (String.eqb k k') eqn:E'; [apply String.eqb_eq in E'; congruence|].
    reflexivity.
  - cbn. rewrite IH. reflexivity.
Qed.

Lemma getProp_own {A} k (v : A) o : lookupKey k o = Some v -> getProp k o = Own v.
Proof. intros H. unfold getProp. rewrite H. reflexivity. Qed.

Lemma getProp_Own_inv {A} k (v : A) o : getProp k o = Own v -> lookupKey k o = Some v.
Proof.
  unfold getProp. destruct (lookupKey k o) as [x|].
  - intros H. inversion H. reflexivity.
  - destruct (isProtoKey k); discriminate.
Qed.

Lemma getProp_Inherited_inv {A} k (o : list (string * A)) :
  getProp k o = Inherited -> lookupKey k o = None /\ isProtoKey k = true.
Proof.
  unfold getProp. destruct (lookupKey k o) as [x|]; [discriminate|].
  destruct (isProtoKey k); [auto|discriminate].
Qed.

Lemma Forall_setKey_pair {A} (P : string * A -> Prop) k v o :
  Forall P o -> P (k, v) -> Forall P (setKey k v o).
Proof.
  intros Ho Hv. induction Ho as [|[k' v'] r Hx Hr IH]; cbn.
  - constructor; [exact Hv|constructor].
  - destruct (String.eqb k' k) eqn:E; constructor; auto.
    apply String.eqb_eq in E. subst k'. exact Hv.
Qed.

Lemma Forall_assign {A} (P : string * A -> Prop) k v o :
  Forall P o -> P (k, v) -> Forall P (assign k v o).
Proof.
  intros Ho Hv. unfold assign.
  destruct (lookupKey k o); [apply Forall_setKey_pair; assumption|].
  destruct (String.eqb k "__proto__"%string);
    [exact Ho|apply Forall_setKey_pair; assumption].
Qed.

(** An assignment is read back, unless it went to the setter of
    [__proto__]. *)
Lemma lookupKey_assign_eq {A} k (v : A) o :
  lookupKey k o <> None \/ k <> "__proto__"%string ->
  lookupKey k (assign k v o) = Some v.
Proof.
  intros H. unfold assign.
  destruct (lookupKey k o) eqn:E; [apply lookupKey_setKey_eq|].
  destruct (String.eqb k "__proto__"%string) eqn:Ek;
    [|apply lookupKey_setKey_eq].
  apply String.eqb_eq in Ek. destruct H as [H|H]; contradiction.
Qed.

Lemma lookupKey_assign_ne {A} k k' (v : A) o :
  k' <> k -> lookupKey k' (assign k v o) = lookupKey k' o.
Proof.
  intros Hne. unfold assign.
  destruct (lookupKey k o); [apply lookupKey_setKey_ne, Hne|].
  destruct (String.eqb k "__proto__"%string);
    [reflexivity|apply lookupKey_setKey_ne, Hne].
Qed.

(** ** [hashPassword] *)

Lemma toInt32_range z : - 2 ^ 31 <= toInt32 z < 2 ^ 31.
Proof.
  unfold toInt32.
  pose proof (Z.mod_pos_bound (z + 2 ^ 31) (2 ^ 32) ltac:(lia)). lia.
Qed.

Lemma toInt32_shift z k : toInt32 (z + k * 2 ^ 32) = toInt32 z.
Proof.
  unfold toInt32.
  replace (z + k * 2 ^ 32 + 2 ^ 31) with (z + 2 ^ 31 + k * 2 ^ 32) by lia.
  rewrite Z_mod_plus_full. reflexivity.
Qed.

Lemma toInt32_repr z : exists k, toInt32 z = z + k * 2 ^ 32.
Proof.
  unfold toInt32. exists (- ((z + 2 ^ 31) / 2 ^ 32)).
  pose proof (Z.div_mod (z + 2 ^ 31) (2 ^ 32) ltac:(lia)). lia.
Qed.

Lemma toInt32_eq_iff a b :
  toInt32 a = toInt32 b <-> a mod 2 ^ 32 = b mod 2 ^ 32.
Proof.
  split.
  - intros H.
    destruct (toInt32_repr a) as [ka Ha], (toInt32_repr b) as [kb Hb].
    assert (E : a = b + (kb - ka) * 2 ^ 32) by lia.
    rewrite E. apply Z_mod_plus_full.
  - intros H.
    pose proof (Z.div_mod a (2 ^ 32) ltac:(lia)) as Ha.
    pose proof (Z.div_mod b (2 ^ 32) ltac:(lia)) as Hb.
    assert (E : a = b + (a / 2 ^ 32 - b / 2 ^ 32) * 2 ^ 32) by lia.
    rewrite E. apply toInt32_shift.
Qed.

Lemma hash_step h c :
  toInt32 (toInt32 (toInt32 (toInt32 h) * 2 ^ 5) - toInt32 h + c)
  = toInt32 (31 * h + c).
Proof.
  destruct (toInt32_repr h) as [k1 H1].
  destruct (toInt32_repr (toInt32 h)) as [k0 H0].
  destruct (toInt32_repr (toInt32 (toInt32 h) * 2 ^ 5)) as [k2 H2].
  rewrite <- (toInt32_shift (31 * h + c) (31 * k1 + 32 * k0 + k2)).
  f_equal. lia.
Qed.

Lemma hashChar_step h c :
  hashChar (toInt32 h) c = toInt32 (31 * h + Z.of_nat (Ascii.nat_of_ascii c)).
Proof.
  unfold hashChar.
  rewrite Z.land_diag, Z.shiftl_mul_pow2 by lia.
  apply hash_step.
Qed.

Lemma hashLoop_cons c r x :
  hashLoop (String.String c r) x = hashLoop r (hashChar x c).
Proof. reflexivity. Qed.

Lemma hashLoop_horner s :
  forall h, hashLoop s (toInt32 h) = toInt32 (horner s h).
Proof.
  induction s as [|c r IH]; intros h; [reflexivity|].
  rewrite hashLoop_cons, hashChar_step. apply IH.
Qed.

Lemma to_int_proper z :
  Z.to_int z <> Decimal.Pos Decimal.Nil /\ Z.to_int z <> Decimal.Neg Decimal.Nil.
Proof.
  split; intros H; pose proof (f_equal Z.of_int H) as H';
    rewrite DecimalZ.of_to in H'; cbn in H'; subst z; discriminate H.
Qed.

Lemma numberToString_inj a b : numberToString a = numberToString b -> a = b.
Proof.
  unfold numberToString. intros H.
  apply (f_equal DecimalString.NilZero.int_of_string) in H.
  destruct (to_int_proper a) as [A1 A2], (to_int_proper b) as [B1 B2].
  rewrite !DecimalString.NilZero.isi in H by assumption.
  inversion H as [E]. apply DecimalZ.to_int_inj, E.
Qed.

(** X13. [hashPassword] prints the base-31 polynomial of the character
    codes reduced to a signed 32-bit integer; two passwords therefore get
    the same hash exactly when their polynomials agree modulo [2^32]. *)
Theorem hashPassword_polynomial p q :
  hashPassword p = numberToString (toInt32 (horner p 0))
  /\ - 2 ^ 31 <= toInt32 (horner p 0) < 2 ^ 31
  /\ (hashPassword p = hashPassword q
      <-> horner p 0 mod 2 ^ 32 = horner q 0 mod 2 ^ 32).
Proof.
  assert (E : forall s, hashLoop s 0 = toInt32 (horner s 0)).
  { intros s. change 0 with (toInt32 0) at 1. apply hashLoop_horner. }
  unfold hashPassword. rewrite !E.
  split; [reflexivity|]. split; [apply toInt32_range|].
  rewrite <- toInt32_eq_iff. split.
  - apply numberToString_inj.
  - intros ->. reflexivity.
Qed.

Example hashPassword_collision :
  hashPassword "Aa"%string = hashPassword "BB"%string
  /\ hashPassword ""%string = "0"%string.
Proof. vm_compute. split; reflexivity. Qed.

(** ** [userService]: interests and history *)

Lemma includes_In x l : includes x l = true <-> In x l.
Proof.
  unfold includes. rewrite existsb_exists. split.
  - intros (y & Hy & E). apply String.eqb_eq in E. subst. exact Hy.
  - intros H. exists x. split; [exact H|apply String.eqb_refl].
Qed.

Lemma NoDup_snoc (l : list string) a : NoDup l -> ~ In a l -> NoDup (l ++ [a]).
Proof.
  intros Hn Ha. induction Hn as [|x r Hx Hr IH]; cbn.
  - constructor; [intros []|constructor].
  - constructor.
    + intros Hin. apply in_app_or in Hin. destruct Hin as [Hin|[Hin|[]]].
      * contradiction.
      * apply Ha. left. symmetry. exact Hin.
    + apply IH. intros Hin. apply Ha. right. exact Hin.
Qed.


(** [updateInterests] for an id that is unknown, also to
    [Object.prototype], returns [null] and writes nothing. *)
Lemma updateInterests_unknown id cat delta st :
  lookupKey id (stUsers st) = None -> isProtoKey id = false ->
  updateInterests id cat delta st = Ok (st, None).
Proof.
  intros Hl Hp. unfold updateInterests, getProp. rewrite Hl, Hp. reflexivity.
Qed.

(** A category that is a name of [Object.prototype]: the first update
    stores a weight that is not a number, which the next update reads as
    1.0; and an id that is such a name makes the call throw. *)
Example updateInterests_inherited :
  exists st1 u1 st2 u2,
    updateInterests "user-1000"%string "toString"%string 5 annStore
    = Ok (st1, Some u1)
    /\ lookupKey "toString"%string (interests u1) = Some NaN
    /\ lookupKey "user-1000"%string (stUsers st1) = Some u1
    /\ updateInterests "user-1000"%string "toString"%string 5 st1
       = Ok (st2, Some u2)
    /\ lookupKey "toString"%string (interests u2) = Some (Num 105)
    /\ updateInterests "toString"%string "Science"%string 5 annStore
       = Err "TypeError"%string.
Proof. do 4 eexists. vm_compute. repeat split; reflexivity. Qed.

(** X15. [addToHistory] for a stored user leaves the article in the
    user's read history, and a second call with the same article changes
    nothing. *)
Theorem addToHistory_idempotent id art st u :
  lookupKey id (stUsers st) = Some u ->
  (exists u',
     lookupKey id (stUsers (addToHistory id art st)) = Some u'
     /\ In art (readHistory u')
     /\ interests u' = interests u)
  /\ addToHistory id art (addToHistory id art st) = addToHistory id art st.
Proof.
  intros Hl.
  assert (H : exists u',
             lookupKey id (stUsers (addToHistory id art st)) = Some u'
             /\ In art (readHistory u') /\ interests u' = interests u).
  { unfold addToHistory. rewrite Hl.
    destruct (includes art (readHistory u)) eqn:E.
    - exists u. repeat split; auto. apply includes_In, E.
    - eexists. split; [cbn; apply lookupKey_setKey_eq|].
      split; [|reflexivity]. cbn. apply in_or_app. right. left. reflexivity. }
  split; [exact H|].
  destruct H as (u' & Hu' & Hin & _).
  unfold addToHistory at 1. rewrite Hu'.
  apply includes_In in Hin. rewrite Hin. reflexivity.
Qed.

Lemma call_keeps_store lower c st :
  storageOK st /\ NoDup (map fst (stUsers st)) ->
  storageOK (call lower c st) /\ NoDup (map fst (stUsers (call lower c st))).
Proof.
  intros [Hok Hk].
  assert (Hsignup : forall data nowMs,
            storageOK match signup lower data nowMs st with
                      | Ok (st', _) => st'
                      | Err _ => st
                      end
            /\ NoDup (map fst (stUsers match signup lower data nowMs st with
                                       | Ok (st', _) => st'
                                       | Err _ => st
                                       end))).
  { intros data nowMs. unfold storageOK in *. unfold signup.
    destruct (existsb _ _); [auto|]. destruct (existsb _ _); [auto|].
    cbn. split; [|apply setKey_keys, Hk].
    apply Forall_setKey; [exact Hok|].
    split; cbn; [|constructor].
    repeat (constructor; [unfold weightOK; cbn; lia|]); constructor. }
  assert (Hlogin : forall identifier pw isGoogle,
            storageOK match login lower identifier pw isGoogle st with
                      | Ok (st', _) => st'
                      | Err _ => st
                      end
            /\ NoDup (map fst (stUsers match login lower identifier pw isGoogle st with
                                       | Ok (st', _) => st'
                                       | Err _ => st
                                       end))).
  { intros identifier pw isGoogle. unfold login.
    destruct (find _ _); cbn; auto. }
  unfold storageOK in *. destruct c; cbn.
  - apply Hsignup.
  - apply Hlogin.
  - auto.
  - unfold updateInterests.
    destruct (getProp id (stUsers st)) as [u| |] eqn:E; cbn; [|auto|auto].
    apply getProp_Own_inv in E.
    split; [|apply setKey_keys, Hk].
    apply Forall_setKey; [exact Hok|].
    destruct (lookupKey_Forall _ _ _ _ Hok E) as [Hw Hh].
    split; cbn; [|exact Hh].
    apply Forall_assign; [exact Hw|].
    unfold weightOK, newWeight, interestOr1. cbn.
    destruct (getProp cat (interests u)) as [[w|]| |] eqn:Ec; cbn; try lia.
    apply getProp_Inherited_inv in Ec. apply Ec.
  - unfold addToHistory.
    destruct (lookupKey id (stUsers st)) as [u|] eqn:E; [|auto].
    destruct (includes art (readHistory u)) eqn:Ei; [auto|]. cbn.
    split; [|apply setKey_keys, Hk].
    apply Forall_setKey; [exact Hok|].
    destruct (lookupKey_Forall _ _ _ _ Hok E) as [Hw Hh].
    split; cbn; [exact Hw|].
    apply NoDup_snoc; [exact Hh|].
    intros Hin. apply includes_In in Hin. congruence.
  - unfold completeOnboarding.
    destruct (getProp id (stUsers st)) as [u| |] eqn:E; cbn;
      [|destruct selected; auto|auto].
    apply getProp_Own_inv in E.
    split; [|apply setKey_keys, Hk].
    apply Forall_setKey; [exact Hok|].
    destruct (lookupKey_Forall _ _ _ _ Hok E) as [Hw Hh].
    split; cbn; [|exact Hh].
    clear E. revert Hw. generalize (interests u).
    induction selected as [|cat r IH]; intros i Hi; cbn; [exact Hi|].
    apply IH. apply Forall_assign; [exact Hi|unfold weightOK; cbn; lia].
  - unfold adminDeleteUser.
    destruct (getProp id (stUsers st)) as [u| |] eqn:E; cbn; [| |auto];
      (destruct (optString_eqb (stCurrent st) id); cbn;
       (split; [apply Forall_deleteKey, Hok|apply deleteKey_keys, Hk])).
  - auto.
  - unfold googleAuthSimulation. destruct (find _ _); [apply Hlogin|apply Hsignup].
  - split; [|apply setKey_keys, Hk].
    apply Forall_setKey; [exact Hok|].
    split; cbn; [|constructor].
    repeat (constructor; [unfold weightOK; cbn; lia|]); constructor.
Qed.

Lemma run_snoc lower cs c : run lower (cs ++ [c]) = call lower c (run lower cs).
Proof. unfold run. rewrite fold_left_app. reflexivity. Qed.

Lemma run_keeps_store lower cs :
  storageOK (run lower cs) /\ NoDup (map fst (stUsers (run lower cs))).
Proof.
  induction cs as [|c r IH] using rev_ind.
  - split; constructor.
  - rewrite run_snoc. apply call_keeps_store, IH.
Qed.



Lemma addToHistory_idempotent_witness :
  lookupKey "user-1000"%string (stUsers annStore) = Some annUser
  /\ addToHistory "user-1000"%string "news-1"%string
       (addToHistory "user-1000"%string "news-1"%string annStore)
     = addToHistory "user-1000"%string "news-1"%string annStore.
Proof.
  assert (L : lookupKey "user-1000"%string (stUsers annStore) = Some annUser)
    by (vm_compute; reflexivity).
  split; [exact L|].
  apply (addToHistory_idempotent "user-1000"%string "news-1"%string annStore
           annUser L).
Defined.


(** ** [userService]: accounts *)

Lemma existsb_false {A} (f : A -> bool) l x :
  existsb f l = false -> In x l -> f x = false.
Proof.
  intros H Hx. destruct (f x) eqn:E; [|reflexivity].
  assert (existsb f l = true) by (apply existsb_exists; exists x; auto).
  congruence.
Qed.

Lemma optString_eqb_true a b : optString_eqb a b = true <-> a = Some b.
Proof.
  destruct a as [x|]; cbn; [|split; discriminate].
  rewrite String.eqb_eq. split; [intros ->; reflexivity|intros H; inversion H; auto].
Qed.

Lemma signup_ok lower data nowMs st st' u :
  signup lower data nowMs st = Ok (st', u) ->
  existsb (fun v => String.eqb (lower (username v)) (lower (suUsername data)))
    (objectValues (stUsers st)) = false
  /\ existsb (fun v => optString_eqb (email v) (suEmail data))
       (objectValues (stUsers st)) = false
  /\ u = mkUser (String.append "user-"%string (numberToString nowMs))
           (suUsername data) (Some (suEmail data))
           match suPassword data with
           | Some p => if String.eqb p ""%string then None
                       else Some (hashPassword p)
           | None => None
           end
           (suAgeRange data) DEFAULT_INTERESTS [] (suIsGoogle data)
           (Some false)
  /\ st' = setCurrent (Some (userId u))
             (saveUsers (setKey (userId u) u (stUsers st)) st).
Proof.
  unfold signup. intros H.
  destruct (existsb
              (fun v => String.eqb (lower (username v))
                          (lower (suUsername data)))
              (objectValues (stUsers st))) eqn:E1; [discriminate|].
  destruct (existsb (fun v => optString_eqb (email v) (suEmail data))
              (objectValues (stUsers st))) eqn:E2; [discriminate|].
  inversion H; subst; clear H. auto.
Qed.

(** X17. When [signup] succeeds, the new user is the current user, with
    the default interests, an empty history and onboarding pending; and it
    succeeds only if no stored user has the same user name up to case or
    the same e-mail address. *)
Theorem signup_opens_session lower data nowMs st st' u :
  signup lower data nowMs st = Ok (st', u) ->
  getCurrentUser st' = Some u
  /\ username u = suUsername data
  /\ interests u = DEFAULT_INTERESTS
  /\ readHistory u = []
  /\ onboardingComplete u = Some false
  /\ forall v, In v (objectValues (stUsers st)) ->
       lower (username v) <> lower (suUsername data)
       /\ email v <> Some (suEmail data).
Proof.
  intros H. destruct (signup_ok _ _ _ _ _ _ H) as (E1 & E2 & Hu & Hst).
  clear H. subst u st'.
  split.
  { unfold getCurrentUser. cbn. apply lookupKey_setKey_eq. }
  repeat split; auto.
  - pose proof (existsb_false _ _ v E1 H) as Hv. cbn in Hv.
    apply String.eqb_neq in Hv. exact Hv.
  - pose proof (existsb_false _ _ v E2 H) as Hv. cbn in Hv.
    intros He. apply optString_eqb_true in He. congruence.
Qed.

Lemma signup_opens_session_witness :
  signup asciiLower annData 1000 emptyStorage = Ok (annStore, annUser)
  /\ getCurrentUser annStore = Some annUser
  /\ username annUser = suUsername annData
  /\ interests annUser = DEFAULT_INTERESTS
  /\ readHistory annUser = []
  /\ onboardingComplete annUser = Some false
  /\ forall v, In v (objectValues (stUsers emptyStorage)) ->
       asciiLower (username v) <> asciiLower (suUsername annData)
       /\ email v <> Some (suEmail annData).
Proof.
  assert (X : signup asciiLower annData 1000 emptyStorage
              = Ok (annStore, annUser)) by (vm_compute; reflexivity).
  split; [exact X|].
  apply (signup_opens_session asciiLower annData 1000 emptyStorage _ _ X).
Defined.

Lemma find_only {A} (f : A -> bool) l t :
  In t l -> f t = true -> (forall x, In x l -> f x = true -> x = t) ->
  find f l = Some t.
Proof.
  intros Hin Ht Hu. induction l as [|x r IH]; [destruct Hin|]. cbn.
  destruct (f x) eqn:E.
  - f_equal. apply Hu; [left; reflexivity|exact E].
  - apply IH.
    + destruct Hin as [->|Hin]; [congruence|exact Hin].
    + intros y Hy. apply Hu. right. exact Hy.
Qed.

(** X18. After a successful [signup] with a non-empty password, [login]
    with the same user name and password succeeds and returns the new
    user, provided no other stored user has the user name as e-mail
    address. *)
Theorem signup_then_login lower data nowMs st st' u p :
  signup lower data nowMs st = Ok (st', u) ->
  suPassword data = Some p ->
  p <> ""%string ->
  (forall v, In v (objectValues (stUsers st)) ->
     email v <> Some (suUsername data)) ->
  login lower (suUsername data) (Some p) false st'
  = Ok (setCurrent (Some (userId u)) st', u).
Proof.
  intros H Hp Hne Hmail.
  destruct (signup_ok _ _ _ _ _ _ H) as (E1 & E2 & Hu & Hst). clear H.
  rewrite Hp in Hu. apply String.eqb_neq in Hne. rewrite Hne in Hu.
  subst st'. unfold login. cbn [stUsers setCurrent saveUsers].
  set (newUser := u).
  rewrite (find_only _ _ newUser); [reflexivity| | |].
  - unfold objectValues. destruct (setKey_has (userId newUser) newUser (stUsers st))
      as [k Hk].
    apply in_map_iff. exists (k, newUser). auto.
  - unfold newUser, loginMatch. rewrite Hu. cbn.
    rewrite !String.eqb_refl. reflexivity.
  - intros x Hx Hm. unfold objectValues in Hx. apply in_map_iff in Hx.
    destruct Hx as ([k v] & <- & Hin). cbn.
    destruct (In_setKey _ _ _ _ Hin) as [Hv|Hold]; [exact Hv|].
    exfalso.
    assert (Hv : In v (objectValues (stUsers st))).
    { unfold objectValues. apply in_map_iff. exists (k, v). auto. }
    pose proof (existsb_false _ _ v E1 Hv) as Hname. cbn in Hname.
    unfold loginMatch in Hm. cbn in Hm. rewrite Hname in Hm. cbn in Hm.
    apply andb_true_iff in Hm. destruct Hm as [Hm _].
    apply optString_eqb_true in Hm. apply (Hmail v Hv Hm).
Qed.

Lemma signup_then_login_witness :
  (signup asciiLower annData 1000 emptyStorage = Ok (annStore, annUser)
   /\ suPassword annData = Some "pw"%string
   /\ "pw"%string <> ""%string
   /\ (forall v, In v (objectValues (stUsers emptyStorage)) ->
         email v <> Some (suUsername annData)))
  /\ login asciiLower (suUsername annData) (Some "pw"%string) false annStore
     = Ok (setCurrent (Some (userId annUser)) annStore, annUser).
Proof.
  assert (X : signup asciiLower annData 1000 emptyStorage
              = Ok (annStore, annUser)) by (vm_compute; reflexivity).
  assert (P : suPassword annData = Some "pw"%string) by reflexivity.
  assert (N : "pw"%string <> ""%string) by discriminate.
  assert (M : forall v, In v (objectValues (stUsers emptyStorage)) ->
                email v <> Some (suUsername annData))
    by (intros v []).
  split; [auto|].
  apply (signup_then_login asciiLower annData 1000 emptyStorage _ _ _ X P N M).
Defined.

(** An account created with an empty password stores no password and
    cannot log in with it. *)
Example empty_password_cannot_login :
  match signup asciiLower
          (mkSignup "Bob"%string "bob@example.org"%string (Some ""%string) ADULT None)
          2000 emptyStorage with
  | Ok (st', u) =>
      password u = None
      /\ login asciiLower "Bob"%string (Some ""%string) false st'
         = Err "Invalid credentials"%string
  | Err _ => False
  end.
Proof. vm_compute. split; reflexivity. Qed.

(** ** [userService]: cached briefings and deletion *)

Lemma hasChar_append c a b : hasChar c (String.append a (String.String c b)) = true.
Proof.
  induction a as [|x r IH]; cbn.
  - rewrite Ascii.eqb_refl. reflexivity.
  - rewrite IH. apply orb_true_r.
Qed.

(** Two keys are equal only for the same user and date, when the dates
    hold no underscore. *)
Lemma briefingKey_inj id d id' d' :
  hasChar "_"%char d = false -> hasChar "_"%char d' = false ->
  briefingKey id d = briefingKey id' d' -> id = id' /\ d = d'.
Proof.
  unfold briefingKey. intros Hd Hd'. revert id'.
  induction id as [|c r IH]; intros [|c' r']; cbn; intros H.
  - inversion H. auto.
  - inversion H as [[Hc Hr]]. subst.
    rewrite hasChar_append in Hd. discriminate.
  - inversion H as [[Hc Hr]]. subst.
    rewrite hasChar_append in Hd'. discriminate.
  - inversion H as [[Hc Hr]]. subst.
    destruct (IH r' Hr) as [-> ->]. auto.
Qed.

(** With a date that is not empty and holds no underscore, the key does
    not end in an underscore, so it is not [__proto__]. *)
Lemma briefingKey_not_proto id d :
  hasChar "_"%char d = false -> d <> ""%string ->
  briefingKey id d <> "__proto__"%string.
Proof.
  intros Hd Hne E.
  assert (P : "__proto__"%string = briefingKey "__proto_"%string ""%string)
    by reflexivity.
  rewrite P in E.
  destruct (briefingKey_inj id d "__proto_"%string ""%string Hd eq_refl E)
    as [_ ->].
  apply Hne. reflexivity.
Qed.

(** X19. A briefing saved for a user and a date is what
    [getDailyBriefing] returns for them, and saving it does not change what
    is returned for any other user or date, dates being written without
    underscore (as [YYYY-MM-DD]) and the date saved under not being
    empty. *)
Theorem briefing_cache id d articles id' d' st :
  hasChar "_"%char d = false -> d <> ""%string ->
  hasChar "_"%char d' = false ->
  (id', d') <> (id, d) ->
  getDailyBriefing id d (saveDailyBriefing id d articles st) = Own articles
  /\ getDailyBriefing id' d' (saveDailyBriefing id d articles st)
     = getDailyBriefing id' d' st.
Proof.
  intros Hd Hne Hd' Hdiff. unfold getDailyBriefing, saveDailyBriefing. cbn.
  split.
  - apply getProp_own. apply lookupKey_assign_eq. right.
    apply briefingKey_not_proto; assumption.
  - unfold getProp. rewrite lookupKey_assign_ne; [reflexivity|].
    intros E.
    destruct (briefingKey_inj _ _ _ _ Hd' Hd E) as [-> ->]. congruence.
Qed.

Lemma briefing_cache_witness :
  (hasChar "_"%char "2024-05-01"%string = false
   /\ "2024-05-01"%string <> ""%string
   /\ hasChar "_"%char "2024-05-02"%string = false
   /\ ("guest"%string, "2024-05-02"%string) <> ("guest"%string, "2024-05-01"%string))
  /\ getDailyBriefing "guest"%string "2024-05-01"%string
       (saveDailyBriefing "guest"%string "2024-05-01"%string [] emptyStorage) = Own []
  /\ getDailyBriefing "guest"%string "2024-05-02"%string
       (saveDailyBriefing "guest"%string "2024-05-01"%string [] emptyStorage)
     = getDailyBriefing "guest"%string "2024-05-02"%string emptyStorage.
Proof.
  assert (A : hasChar "_"%char "2024-05-01"%string = false) by reflexivity.
  assert (B : hasChar "_"%char "2024-05-02"%string = false) by reflexivity.
  assert (C : ("guest"%string, "2024-05-02"%string) <> ("guest"%string, "2024-05-01"%string))
    by discriminate.
  assert (N : "2024-05-01"%string <> ""%string) by discriminate.
  split; [auto|].
  apply (briefing_cache "guest"%string "2024-05-01"%string [] "guest"%string "2024-05-02"%string
           emptyStorage A N B C).
Defined.

(** With an underscore in the date the keys of different users can
    coincide. *)
Example briefingKey_collision :
  briefingKey "a_b"%string "c"%string = briefingKey "a"%string "b_c"%string.
Proof. reflexivity. Qed.

(** With an empty date the key can spell [__proto__]: saving under it
    stores nothing, and reading it gives the inherited object instead of
    the articles. *)
Example briefing_proto_key :
  briefingKey "__proto_"%string ""%string = "__proto__"%string
  /\ saveDailyBriefing "__proto_"%string ""%string [] emptyStorage = emptyStorage
  /\ getDailyBriefing "__proto_"%string ""%string
       (saveDailyBriefing "__proto_"%string ""%string [] emptyStorage)
     = Inherited.
Proof. vm_compute. repeat split; reflexivity. Qed.

(** X20. In a store built by the service, deleting a stored user removes
    that user and only that user, and closes the session if it was
    theirs. *)
Theorem adminDeleteUser_removes lower cs id u :
  lookupKey id (stUsers (run lower cs)) = Some u ->
  snd (adminDeleteUser id (run lower cs)) = true
  /\ lookupKey id (stUsers (fst (adminDeleteUser id (run lower cs)))) = None
  /\ (forall id', id' <> id ->
        lookupKey id' (stUsers (fst (adminDeleteUser id (run lower cs))))
        = lookupKey id' (stUsers (run lower cs)))
  /\ stCurrent (fst (adminDeleteUser id (run lower cs))) <> Some id.
Proof.
  intros Hl. destruct (run_keeps_store lower cs) as [_ Hk].
  unfold adminDeleteUser. rewrite (getProp_own _ _ _ Hl). cbn.
  destruct (optString_eqb (stCurrent (run lower cs)) id) eqn:E; cbn.
  - split; [reflexivity|]. split; [apply lookupKey_deleteKey_eq, Hk|].
    split; [intros id' Hid; apply lookupKey_deleteKey_ne, Hid|discriminate].
  - split; [reflexivity|]. split; [apply lookupKey_deleteKey_eq, Hk|].
    split; [intros id' Hid; apply lookupKey_deleteKey_ne, Hid|].
    intros Hc. apply optString_eqb_true in Hc. congruence.
Qed.

(** For a name of [Object.prototype] that is no stored id the call also
    returns [true], and removes nothing. *)
Example adminDeleteUser_inherited :
  adminDeleteUser "toString"%string annStore = (annStore, true)
  /\ adminDeleteUser "user-7"%string annStore = (annStore, false).
Proof. vm_compute. split; reflexivity. Qed.

Lemma adminDeleteUser_removes_witness :
  lookupKey "user-1000"%string (stUsers (run asciiLower [CallSignup annData 1000]))
  = Some annUser
  /\ snd (adminDeleteUser "user-1000"%string (run asciiLower [CallSignup annData 1000]))
     = true
  /\ lookupKey "user-1000"%string
       (stUsers (fst (adminDeleteUser "user-1000"%string
                        (run asciiLower [CallSignup annData 1000])))) = None
  /\ (forall id', id' <> "user-1000"%string ->
        lookupKey id'
          (stUsers (fst (adminDeleteUser "user-1000"%string
                           (run asciiLower [CallSignup annData 1000]))))
        = lookupKey id' (stUsers (run asciiLower [CallSignup annData 1000])))
  /\ stCurrent (fst (adminDeleteUser "user-1000"%string
                       (run asciiLower [CallSignup annData 1000])))
     <> Some "user-1000"%string.
Proof.
  assert (L : lookupKey "user-1000"%string
                (stUsers (run asciiLower [CallSignup annData 1000]))
              = Some annUser) by (vm_compute; reflexivity).
  split; [exact L|].
  apply (adminDeleteUser_removes asciiLower [CallSignup annData 1000]
           "user-1000"%string annUser L).
Defined.

(** ** [userService]: accounts created from the console and the simulated
    Google sign-in *)

Lemma values_setKey {A} k (v x : A) o :
  In x (objectValues (setKey k v o)) -> x = v \/ In x (objectValues o).
Proof.
  unfold objectValues. intros H. apply in_map_iff in H.
  destruct H as ([k' y] & <- & Hin). cbn.
  destruct (In_setKey _ _ _ _ Hin) as [Hv|Hold]; [left; exact Hv|].
  right. apply in_map_iff. exists (k', y). auto.
Qed.

Lemma values_setKey_new {A} k (v : A) o : In v (objectValues (setKey k v o)).
Proof.
  unfold objectValues. destruct (setKey_has k v o) as [k' Hk].
  apply in_map_iff. exists (k', v). auto.
Qed.

(** X21. After [adminAddUser], [login] with the given user name and
    password succeeds, also with an empty password: it returns an account
    with that password's hash whose user name is the given one up to case
    or whose e-mail address is the given name.  [adminAddUser] itself
    leaves the session as it is. *)
Theorem adminAddUser_then_login lower name pw mail age nowMs st :
  exists v,
    login lower name (Some pw) false (fst (adminAddUser name pw mail age nowMs st))
    = Ok (setCurrent (Some (userId v))
            (fst (adminAddUser name pw mail age nowMs st)), v)
    /\ password v = Some (hashPassword pw)
    /\ (lower (username v) = lower name \/ email v = Some name)
    /\ stCurrent (fst (adminAddUser name pw mail age nowMs st)) = stCurrent st.
Proof.
  unfold login.
  destruct (find (loginMatch lower name (Some pw) false)
              (objectValues (stUsers (fst (adminAddUser name pw mail age nowMs st)))))
    as [v|] eqn:E.
  - exists v. apply find_some in E. destruct E as [_ Hm].
    unfold loginMatch in Hm. apply andb_true_iff in Hm. destruct Hm as [Hn Hp].
    apply optString_eqb_true in Hp.
    split; [reflexivity|]. split; [exact Hp|]. split; [|reflexivity].
    apply orb_true_iff in Hn. destruct Hn as [Hn|Hn].
    + left. apply String.eqb_eq. exact Hn.
    + right. apply optString_eqb_true. exact Hn.
  - exfalso.
    pose proof (find_none _ _ E) as Hnone.
    specialize (Hnone _ (values_setKey_new
                           (String.append "user-"%string (numberToString nowMs))
                           (mkUser (String.append "user-"%string (numberToString nowMs))
                              name (Some mail) (Some (hashPassword pw)) age
                              DEFAULT_INTERESTS [] None (Some false))
                           (stUsers st))).
    unfold loginMatch in Hnone. cbn in Hnone.
    rewrite !String.eqb_refl in Hnone. discriminate Hnone.
Qed.

(** [adminAddUser] checks no duplicates: it accepts a user name that
    [signup] rejects, and [login] then returns the older account when the
    passwords agree. *)
Example adminAddUser_duplicate_name :
  let st := fst (adminAddUser "ann"%string "pw"%string "a@example.org"%string
                   ADULT 2000 annStore) in
  length (stUsers st) = 2%nat
  /\ signup asciiLower
       (mkSignup "ann"%string "a@example.org"%string (Some "pw"%string) ADULT None)
       2000 annStore
     = Err "Username already taken"%string
  /\ login asciiLower "ann"%string (Some "pw"%string) false st
     = Ok (setCurrent (Some "user-1000"%string) st, annUser).
Proof. vm_compute. repeat split; reflexivity. Qed.

(** X22. When [googleAuthSimulation] succeeds, the account it returns has
    the demonstration address and is a Google account, and a second call
    returns the same account and changes nothing: no second account is
    created. *)
Theorem googleAuth_again lower nowMs nowMs' st st1 u :
  googleAuthSimulation lower nowMs st = Ok (st1, u) ->
  email u = Some GOOGLE_EMAIL
  /\ isGoogleAuth u = Some true
  /\ googleAuthSimulation lower nowMs' st1 = Ok (st1, u).
Proof.
  unfold googleAuthSimulation.
  destruct (find (fun u0 => optString_eqb (email u0) GOOGLE_EMAIL)
              (objectValues (stUsers st))) as [e|] eqn:E; intros H.
  - unfold login in H.
    destruct (find (loginMatch lower GOOGLE_EMAIL None true)
                (objectValues (stUsers st))) as [v|] eqn:F; [|discriminate H].
    inversion H; subst; clear H.
    pose proof (find_some _ _ F) as [_ Hm].
    unfold loginMatch in Hm. apply andb_true_iff in Hm. destruct Hm as [Hmail Hg].
    apply optString_eqb_true in Hmail.
    split; [exact Hmail|].
    split; [destruct (isGoogleAuth u) as [[|]|]; congruence|].
    cbn [stUsers setCurrent]. rewrite E. unfold login.
    cbn [stUsers setCurrent]. rewrite F. reflexivity.
  - destruct (signup_ok _ _ _ _ _ _ H) as (_ & _ & Hu & Hst). clear H.
    cbn in Hu.
    assert (Hmail : email u = Some GOOGLE_EMAIL) by (rewrite Hu; reflexivity).
    assert (Hg : isGoogleAuth u = Some true) by (rewrite Hu; reflexivity).
    split; [exact Hmail|]. split; [exact Hg|].
    assert (Hold : forall x, In x (objectValues (stUsers st)) ->
                     optString_eqb (email x) GOOGLE_EMAIL = false)
      by (apply (find_none _ _ E)).
    subst st1. cbn [stUsers setCurrent saveUsers].
    rewrite (find_only _ _ u).
    + unfold login. cbn [stUsers setCurrent saveUsers].
      rewrite (find_only _ _ u); [reflexivity| | |].
      * apply values_setKey_new.
      * unfold loginMatch. rewrite Hmail, Hg. reflexivity.
      * intros x Hx Hm. destruct (values_setKey _ _ _ _ Hx) as [Hv|Hin]; [exact Hv|].
        unfold loginMatch in Hm. rewrite (Hold x Hin) in Hm. discriminate Hm.
    + apply values_setKey_new.
    + rewrite Hmail. reflexivity.
    + intros x Hx Hm. destruct (values_setKey _ _ _ _ Hx) as [Hv|Hin]; [exact Hv|].
      rewrite (Hold x Hin) in Hm. discriminate Hm.
Qed.

Lemma googleAuth_again_witness :
  googleAuthSimulation asciiLower 5000 emptyStorage = Ok (googleStore, googleUser)
  /\ email googleUser = Some GOOGLE_EMAIL
  /\ isGoogleAuth googleUser = Some true
  /\ googleAuthSimulation asciiLower 9000 googleStore
     = Ok (googleStore, googleUser).
Proof.
  assert (X : googleAuthSimulation asciiLower 5000 emptyStorage
              = Ok (googleStore, googleUser)) by (vm_compute; reflexivity).
  split; [exact X|].
  apply (googleAuth_again asciiLower 5000 9000 emptyStorage _ _ X).
Defined.

(** X23. When the demonstration address belongs to stored accounts none
    of which is a Google account, [googleAuthSimulation] fails with
    ["Invalid credentials"] and leaves the store as it is. *)
Theorem googleAuth_blocked lower nowMs st v :
  In v (objectValues (stUsers st)) ->
  email v = Some GOOGLE_EMAIL ->
  (forall x, In x (objectValues (stUsers st)) ->
     email x = Some GOOGLE_EMAIL -> isGoogleAuth x <> Some true) ->
  googleAuthSimulation lower nowMs st = Err "Invalid credentials"%string
  /\ call lower (CallGoogleAuth nowMs) st = st.
Proof.
  intros Hin Hmail Hng.
  assert (H : googleAuthSimulation lower nowMs st
              = Err "Invalid credentials"%string).
  { unfold googleAuthSimulation.
    destruct (find (fun u0 => optString_eqb (email u0) GOOGLE_EMAIL)
                (objectValues (stUsers st))) as [e|] eqn:E.
    - unfold login.
      destruct (find (loginMatch lower GOOGLE_EMAIL None true)
                  (objectValues (stUsers st))) as [x|] eqn:F; [|reflexivity].
      exfalso. apply find_some in F. destruct F as [Hx Hm].
      unfold loginMatch in Hm. apply andb_true_iff in Hm. destruct Hm as [Hm Hg].
      apply optString_eqb_true in Hm.
      apply (Hng x Hx Hm). destruct (isGoogleAuth x) as [[|]|]; congruence.
    - exfalso. pose proof (find_none _ _ E v Hin) as Hv. cbn in Hv.
      rewrite Hmail in Hv. discriminate Hv. }
  split; [exact H|]. cbn. rewrite H. reflexivity.
Qed.

Lemma googleAuth_blocked_witness :
  (In demoUser (objectValues (stUsers demoStore))
   /\ email demoUser = Some GOOGLE_EMAIL
   /\ (forall x, In x (objectValues (stUsers demoStore)) ->
         email x = Some GOOGLE_EMAIL -> isGoogleAuth x <> Some true))
  /\ googleAuthSimulation asciiLower 5000 demoStore
     = Err "Invalid credentials"%string
  /\ call asciiLower (CallGoogleAuth 5000) demoStore = demoStore.
Proof.
  assert (S : objectValues (stUsers demoStore) = [demoUser])
    by (vm_compute; reflexivity).
  assert (A : In demoUser (objectValues (stUsers demoStore)))
    by (rewrite S; left; reflexivity).
  assert (B : email demoUser = Some GOOGLE_EMAIL) by reflexivity.
  assert (C : forall x, In x (objectValues (stUsers demoStore)) ->
                email x = Some GOOGLE_EMAIL -> isGoogleAuth x <> Some true).
  { rewrite S. intros x [<-|[]] _. discriminate. }
  split; [auto|].
  apply (googleAuth_blocked asciiLower 5000 demoStore demoUser A B C).
Defined.
